(** * query/mutation.go: the write-path preprocessing of a mutation

    A shallow embedding of [src/query/mutation.go] (package [query]):
    [ApplyMutations], [expandEdges], [verifyUid], [AssignUids] and
    [ToInternal], followed by the properties the specification states about
    them.

    Conventions.
    - [uint64] values are integers of [Z]; the one arithmetic operation of
      the file that can leave the range, [+], is written with its wrap-around
      ([wrap64]).
    - [[]byte] and [string] are both [string]: the conversions
      [string(b)] and [[]byte(s)] of the source are the identity here.
    - A Go function returning [(v, err)] with [v] meaningful next to a
      non-nil [err] is a pair [(v, option error)]; where [v] is ignored on
      error it is a sum [A + error].
    - Calls that leave the process (storage reads, the lease authority, the
      commit protocol) are recorded in a trace, see [Eff]. Tracing
      ([tr.LazyPrintf]) has no effect on any result and is left out. *)

From Stdlib Require Import ZArith Lia Ascii String.
From stdpp Require Import gmap strings list fin_maps.

Local Open Scope Z_scope.

(** ** Machine integers *)

Definition uint64_modulus : Z := 2 ^ 64.

Definition is_uint64 (z : Z) : Prop := 0 <= z < uint64_modulus.

(** Go's [+] on [uint64]. *)
Definition wrap64 (z : Z) : Z := z mod uint64_modulus.

(** ** Package [x] *)

(** [x.Star], the wildcard marker. Package [x] is outside [src/]; the
    source spells the marker in its comments and messages ("S * *",
    "* P *"). *)
Definition Star : string := "*".

(** ** Errors

    One constructor per place where [mutation.go] builds an error, plus the
    two wrappers of package [x] and the errors that come back from
    collaborators. *)
Inductive error : Type :=
| ErrExpandEdgeDisabled              (* ApplyMutations: "Expand edge (--expand_edge) is set to false. ..." *)
| ErrValueMatrix (entity : Z)        (* expandEdges: "Expected only one list in value matrix ..." *)
| ErrUidAboveLease (uid lease : Z)   (* verifyUid: "Uid: [%d] cannot be greater than lease: [%d]" *)
| ErrPredicateDeletion               (* ToInternal: "Predicate deletion should be called via alter." *)
| ErrWrap (e : error)                (* x.Wrap(err) *)
| ErrWrapf (e : error) (msg : string) (* x.Wrapf(err, msg) *)
| ErrExternal (msg : string).        (* an error produced outside this file *)

(** ** Package [protos]

    The message types are declared outside [src/]; the records below carry
    the fields [mutation.go] reads or writes, and for [DirectedEdge] and
    [NQuad] the remaining fields of the message as well, since the code
    copies whole structs. *)

Record Facet : Type := mkFacet {
  Facet_Key : string;
  Facet_Value : string
}.

(** [protos.DirectedEdge_Op]: a protobuf enum, so a value outside the two
    declared ones can be stored in the field. *)
Inductive DirectedEdge_Op : Type :=
| DirectedEdge_SET
| DirectedEdge_DEL
| DirectedEdge_Op_undeclared (n : Z).

Record DirectedEdge : Type := mkDirectedEdge {
  Entity : Z;
  Attr : string;
  Value : string;
  ValueType : Z;
  ValueId : Z;
  Label : string;
  Lang : string;
  Op : DirectedEdge_Op;
  EdgeFacets : list Facet
}.

(** [protos.Value], the oneof carried by [NQuad.ObjectValue]. Only the
    default-value variant is inspected by this file. *)
Inductive ObjValue : Type :=
| Value_DefaultVal (s : string)
| Value_StrVal (s : string)
| Value_IntVal (i : Z)
| Value_BoolVal (b : bool)
| Value_BytesVal (b : string).

(** [GetDefaultVal] on a [*protos.Value]: the generated getter, nil-safe. *)
Definition GetDefaultVal (v : option ObjValue) : string :=
  match v with
  | Some (Value_DefaultVal s) => s
  | _ => ""
  end.

Record NQuad : Type := mkNQuad {
  Subject : string;
  Predicate : string;
  ObjectId : string;
  ObjectValue : option ObjValue;
  NQuad_Label : string;
  ObjectType : Z;
  NQuad_Lang : string;
  Facets : list Facet
}.

Record TaskValue : Type := mkTaskValue { Val : string }.

Record ValueList : Type := mkValueList { Values : list TaskValue }.

Record Mutations : Type := mkMutations {
  Edges : list DirectedEdge;
  StartTs : Z
}.

Record AssignedIds : Type := mkAssignedIds {
  StartId : Z;
  EndId : Z
}.

(** [gql.Mutation]; [Set] is reserved in Rocq, hence the prefix. *)
Record Mutation : Type := mkMutation {
  Mutation_Set : list NQuad;
  Mutation_Del : list NQuad
}.

#[global] Instance Facet_eq_dec : EqDecision Facet.
Proof. solve_decision. Defined.
#[global] Instance DirectedEdge_Op_eq_dec : EqDecision DirectedEdge_Op.
Proof. solve_decision. Defined.
#[global] Instance DirectedEdge_eq_dec : EqDecision DirectedEdge.
Proof. solve_decision. Defined.
#[global] Instance error_eq_dec : EqDecision error.
Proof. solve_decision. Defined.

(** ** Collaborators

    Everything [mutation.go] calls and does not define: the other packages
    of the repository, the rest of package [query], and the order in which
    the Go runtime enumerates a map. *)
Class Env : Type := mkEnv {
  (** [protos.TxnContext] *)
  TxnContext : Type;
  (** [worker.Config.ExpandEdge] *)
  Config_ExpandEdge : bool;
  (** [worker.MaxLeaseId()] *)
  MaxLeaseId : Z;
  (** [worker.MutateOverNetwork(ctx, m)] *)
  MutateOverNetwork : Mutations -> option TxnContext * option error;
  (** [worker.AssignUidsOverNetwork(ctx, num)], by [num.Val] *)
  AssignUidsOverNetwork : Z -> AssignedIds + error;
  (** [getNodePredicates(ctx, sg)] of package [query], by the single
      element of [sg.DestUIDs] and by [sg.ReadTs] *)
  getNodePredicates : Z -> Z -> list ValueList + error;
  (** [schema.State().IsReversed(pred)] *)
  IsReversed : string -> bool;
  (** [posting.Get(x.DataKey(pred, entity)).Uids(ListOptions{ReadTs})],
      by [pred], [entity] and [ReadTs]; the result is [list.Uids] *)
  posting_Uids : string -> Z -> Z -> list Z + error;
  (** [gql.ParseUid(s)] *)
  ParseUid : string -> Z * option error;
  (** [facets.SortAndValidate(fs)]: sorts [fs] in place, so the slice
      after the call is part of the result *)
  SortAndValidate : list Facet -> list Facet * option error;
  (** [ToEdgeUsing(newUids)] on a [*gql.NQuad] *)
  ToEdgeUsing : NQuad -> gmap string Z -> DirectedEdge + error;
  (** the order in which [for k := range m] visits the keys of [m] *)
  rangeKeys : gmap string Z -> list string
}.

(** What the language guarantees about [range] over a map that is not
    grown or shrunk during the loop: every key is visited exactly once. *)
Definition range_visits_each_key_once `{Env} : Prop :=
  forall m : gmap string Z, rangeKeys m ≡ₚ (map_to_list m).*1.

(** ** Effects

    A computation yields an outcome and the calls it made, in order, to
    collaborators outside the process. [Fatal] is a failed [x.AssertTrue] /
    [x.AssertTruef]: the request does not return. *)
Inductive Call : Type :=
| Call_getNodePredicates (entity readTs : Z)
| Call_posting_Uids (pred : string) (entity readTs : Z)
| Call_AssignUidsOverNetwork (num : Z)
| Call_MutateOverNetwork (m : Mutations).

Inductive Outcome (A : Type) : Type :=
| Done (a : A)
| Fatal (msg : string).
Arguments Done {A} a.
Arguments Fatal {A} msg.

Definition Eff (A : Type) : Type := (Outcome A * list Call)%type.

#[global] Instance Eff_ret : MRet Eff := fun A a => (Done a, []).

#[global] Instance Eff_bind : MBind Eff := fun A B f c =>
  match c with
  | (Done a, t) => let '(r, t') := f a in (r, t ++ t')
  | (Fatal msg, t) => (Fatal msg, t)
  end.

Definition call (c : Call) : Eff unit := (Done tt, [c]).

Definition fatal {A : Type} (msg : string) : Eff A := (Fatal msg, []).

Definition outcome {A : Type} (c : Eff A) : Outcome A := fst c.

Section Query.

Context `{Env}.

(** ** ApplyMutations and expandEdges *)

(** [edgeCopy := *edge; edgeCopy.Attr = pred] *)
Definition narrowTo (edge : DirectedEdge) (pred : string) : DirectedEdge :=
  let edgeCopy := edge in
  {| Entity := Entity edgeCopy; Attr := pred; Value := Value edgeCopy;
     ValueType := ValueType edgeCopy; ValueId := ValueId edgeCopy;
     Label := Label edgeCopy; Lang := Lang edgeCopy; Op := Op edgeCopy;
     EdgeFacets := EdgeFacets edgeCopy |}.

(** [&protos.DirectedEdge{Op: op, Entity: entity, Attr: "_predicate_",
    Value: []byte(value)}]; the fields not named take their zero value. *)
Definition predicateEdge (op : DirectedEdge_Op) (entity : Z) (value : string)
  : DirectedEdge :=
  {| Entity := entity; Attr := "_predicate_"; Value := value;
     ValueType := 0; ValueId := 0; Label := ""; Lang := ""; Op := op;
     EdgeFacets := [] |}.

(** The loop of lines 74-78 over [valMatrix[0].Values]. *)
Fixpoint livePreds (values : list TaskValue) (preds : list string) : list string :=
  match values with
  | [] => preds
  | tv :: rest =>
      if (0 <? String.length (Val tv))%nat
      then livePreds rest (preds ++ [Val tv])
      else livePreds rest preds
  end.

(** Lines 59-79: the predicates an edge stands for. *)
Definition resolvePreds (m : Mutations) (edge : DirectedEdge)
  : Eff (list string + error) :=
  if bool_decide (Attr edge <> Star) then mret (inl [Attr edge])
  else
    _ ← call (Call_getNodePredicates (Entity edge) (StartTs m));
    match getNodePredicates (Entity edge) (StartTs m) with
    | inr err => mret (inr err)
    | inl valMatrix =>
        match valMatrix with
        | [vl] => mret (inl (livePreds (Values vl) []))
        | _ => mret (inr (ErrValueMatrix (Entity edge)))
        end
    end.

(** The loop of lines 109-117. *)
Fixpoint appendReverse (edge : DirectedEdge) (pred : string) (objs : list Z)
    (edges : list DirectedEdge) : list DirectedEdge :=
  match objs with
  | [] => edges
  | obj :: rest =>
      appendReverse edge pred rest
        (edges ++ [predicateEdge (Op edge) obj ("~" +:+ pred)])
  end.

(** The loop of lines 81-118. *)
Fixpoint expandPreds (m : Mutations) (edge : DirectedEdge) (preds : list string)
    (edges : list DirectedEdge) : Eff (list DirectedEdge + error) :=
  match preds with
  | [] => mret (inl edges)
  | pred :: rest =>
      let edges := edges ++ [narrowTo edge pred] in
      let edges := edges ++ [predicateEdge (Op edge) (Entity edge) pred] in
      if negb (IsReversed pred) then expandPreds m edge rest edges
      else if bool_decide (Value edge <> Star)
      then expandPreds m edge rest (appendReverse edge pred [ValueId edge] edges)
      else
        _ ← call (Call_posting_Uids pred (Entity edge) (StartTs m));
        match posting_Uids pred (Entity edge) (StartTs m) with
        | inr err => mret (inr err)
        | inl uids => expandPreds m edge rest (appendReverse edge pred uids edges)
        end
  end.

(** The loop of lines 49-119. *)
Fixpoint expandLoop (m : Mutations) (input : list DirectedEdge)
    (edges : list DirectedEdge) : Eff (list DirectedEdge + error) :=
  match input with
  | [] => mret (inl edges)
  | edge :: rest =>
      if negb (bool_decide (Op edge = DirectedEdge_DEL)
               || bool_decide (Op edge = DirectedEdge_SET))
      then fatal "assertion failed"
      else if bool_decide (Op edge = DirectedEdge_DEL)
              && bool_decide (Entity edge = 0)
              && bool_decide (Value edge = Star)
      then expandLoop m rest (edges ++ [edge])
      else
        r ← resolvePreds m edge;
        match r with
        | inr err => mret (inr err)
        | inl preds =>
            r ← expandPreds m edge preds edges;
            match r with
            | inr err => mret (inr err)
            | inl edges => expandLoop m rest edges
            end
        end
  end.

Definition expandEdges (m : Mutations) : Eff (list DirectedEdge + error) :=
  expandLoop m (Edges m) [].

(** The loop of lines 31-36. *)
Fixpoint rejectStar (edges : list DirectedEdge) : option error :=
  match edges with
  | [] => None
  | mu :: rest =>
      if bool_decide (Attr mu = Star) && negb Config_ExpandEdge
      then Some ErrExpandEdgeDisabled
      else rejectStar rest
  end.

(** Lines 38-44. *)
Definition commit (m : Mutations) : Eff (option TxnContext * option error) :=
  _ ← call (Call_MutateOverNetwork m);
  mret (MutateOverNetwork m).

Definition ApplyMutations (m : Mutations)
  : Eff (option TxnContext * option error) :=
  if Config_ExpandEdge then
    r ← expandEdges m;
    match r with
    | inr err => mret (None, Some (ErrWrapf err "While adding internal edges"))
    | inl edges => commit {| Edges := edges; StartTs := StartTs m |}
    end
  else
    match rejectStar (Edges m) with
    | Some err => mret (None, Some err)
    | None => commit m
    end.

(** ** verifyUid *)

Definition verifyUid (uid : Z) : option error :=
  let maxLeaseId := MaxLeaseId in
  if uid >? wrap64 (maxLeaseId + 10000)
  then Some (ErrUidAboveLease uid maxLeaseId)
  else None.

(** ** AssignUids *)

(** Lines 143-153, and again 155-165: one reference of a statement. The
    local [uid] starts at zero and is only set by [gql.ParseUid]. *)
Definition scanRef (ref : string) (newUids : gmap string Z)
  : gmap string Z * option error :=
  if (0 <? String.length ref)%nat then
    if String.prefix "_:" ref then
      let newUids := <[ref := 0]> newUids in
      (newUids, verifyUid 0)
    else
      match ParseUid ref with
      | (_, Some err) => (newUids, Some err)
      | (uid, None) => (newUids, verifyUid uid)
      end
  else (newUids, None).

(** The loop of lines 137-166. *)
Fixpoint scanNQuads (nquads : list NQuad) (newUids : gmap string Z)
  : gmap string Z * option error :=
  match nquads with
  | [] => (newUids, None)
  | nq :: rest =>
      if bool_decide (Subject nq = Star)
         && bool_decide (GetDefaultVal (ObjectValue nq) = Star)
      then scanNQuads rest newUids  (* continue *)
      else
        match scanRef (Subject nq) newUids with
        | (newUids, Some err) => (newUids, Some err)
        | (newUids, None) =>
            match scanRef (ObjectId nq) newUids with
            | (newUids, Some err) => (newUids, Some err)
            | (newUids, None) => scanNQuads rest newUids
            end
        end
  end.

(** The loop of lines 181-185, over the keys in the order the runtime
    yields them. *)
Fixpoint assignGenerated (keys : list string) (curId endId : Z)
    (newUids : gmap string Z) : Eff (gmap string Z) :=
  match keys with
  | [] => mret newUids
  | k :: rest =>
      if bool_decide (curId <> 0) && (curId <=? endId)
      then assignGenerated rest (wrap64 (curId + 1)) endId (<[k := curId]> newUids)
      else fatal "not enough uids generated"
  end.

Definition AssignUids (nquads : list NQuad)
  : Eff (gmap string Z * option error) :=
  match scanNQuads nquads ∅ with
  | (newUids, Some err) => mret (newUids, Some err)
  | (newUids, None) =>
      let num := Z.of_nat (size newUids) in
      if num >? 0 then
        _ ← call (Call_AssignUidsOverNetwork num);
        match AssignUidsOverNetwork num with
        | inr err => mret (newUids, Some err)
        | inl res =>
            newUids ← assignGenerated (rangeKeys newUids) (StartId res) (EndId res) newUids;
            mret (newUids, None)
        end
      else mret (newUids, None)
  end.

(** ** ToInternal *)

Definition setOp (edge : DirectedEdge) (op : DirectedEdge_Op) : DirectedEdge :=
  {| Entity := Entity edge; Attr := Attr edge; Value := Value edge;
     ValueType := ValueType edge; ValueId := ValueId edge;
     Label := Label edge; Lang := Lang edge; Op := op;
     EdgeFacets := EdgeFacets edge |}.

(** The closure [parse] of lines 196-210; [edges] is the captured
    result slice. *)
Definition parse (newUids : gmap string Z) (nq : NQuad) (op : DirectedEdge_Op)
    (edges : list DirectedEdge) : list DirectedEdge * option error :=
  if (String.length (Subject nq) =? 0)%nat then (edges, None)
  else
    match ToEdgeUsing nq newUids with
    | inr err => (edges, Some (ErrWrap err))
    | inl edge => (edges ++ [setOp edge op], None)
    end.

(** [nq.Facets] after [facets.SortAndValidate] has sorted it in place. *)
Definition withFacets (nq : NQuad) (fs : list Facet) : NQuad :=
  {| Subject := Subject nq; Predicate := Predicate nq; ObjectId := ObjectId nq;
     ObjectValue := ObjectValue nq; NQuad_Label := NQuad_Label nq;
     ObjectType := ObjectType nq; NQuad_Lang := NQuad_Lang nq; Facets := fs |}.

(** The loop of lines 212-219. *)
Fixpoint translateSet (newUids : gmap string Z) (set : list NQuad)
    (edges : list DirectedEdge) : list DirectedEdge * option error :=
  match set with
  | [] => (edges, None)
  | nq :: rest =>
      match SortAndValidate (Facets nq) with
      | (_, Some err) => (edges, Some err)
      | (fs, None) =>
          match parse newUids (withFacets nq fs) DirectedEdge_SET edges with
          | (edges, Some err) => (edges, Some err)
          | (edges, None) => translateSet newUids rest edges
          end
      end
  end.

(** The statement shape tested at lines 139 and 221. *)
Definition isPredicateDeletion (nq : NQuad) : bool :=
  bool_decide (Subject nq = Star)
  && bool_decide (GetDefaultVal (ObjectValue nq) = Star).

(** The loop of lines 220-227. *)
Fixpoint translateDel (newUids : gmap string Z) (del : list NQuad)
    (edges : list DirectedEdge) : list DirectedEdge * option error :=
  match del with
  | [] => (edges, None)
  | nq :: rest =>
      if isPredicateDeletion nq then (edges, Some ErrPredicateDeletion)
      else
        match parse newUids nq DirectedEdge_DEL edges with
        | (edges, Some err) => (edges, Some err)
        | (edges, None) => translateDel newUids rest edges
        end
  end.

Definition ToInternal (gmu : Mutation) (newUids : gmap string Z)
  : list DirectedEdge * option error :=
  match translateSet newUids (Mutation_Set gmu) [] with
  | (edges, Some err) => (edges, Some err)
  | (edges, None) => translateDel newUids (Mutation_Del gmu) edges
  end.

End Query.

(** ** A concrete set of collaborators

    Small executable stand-ins for the collaborators, used to evaluate the
    functions above on concrete requests. They fix one storage snapshot:
    entity 5 carries the predicates p1 and p2, p1 is reverse-indexed and
    points from 5 to 7 and 8. *)
Module Sample.

Definition digit (a : Ascii.ascii) : option Z :=
  let n := Z.of_nat (Ascii.nat_of_ascii a) in
  if (48 <=? n) && (n <=? 57) then Some (n - 48) else None.

Fixpoint parseDigits (s : string) (acc : Z) : option Z :=
  match s with
  | EmptyString => Some acc
  | String a rest =>
      match digit a with
      | Some d => parseDigits rest (10 * acc + d)
      | None => None
      end
  end.

(** Decimal identifiers only; anything else is refused. *)
Definition ParseUid (s : string) : Z * option error :=
  match s with
  | EmptyString => (0, Some (ErrExternal "invalid uid"))
  | _ =>
      match parseDigits s 0 with
      | Some n => if n <? uint64_modulus then (n, None)
                  else (0, Some (ErrExternal "uid out of range"))
      | None => (0, Some (ErrExternal "invalid uid"))
      end
  end.

(** Keeps the order and refuses a key that occurs twice. *)
Definition SortAndValidate (fs : list Facet) : list Facet * option error :=
  if bool_decide (NoDup (Facet_Key <$> fs)) then (fs, None)
  else (fs, Some (ErrExternal "repeated facet key")).

Definition resolve (ref : string) (newUids : gmap string Z) : Z + error :=
  if String.prefix "_:" ref then
    match newUids !! ref with
    | Some uid => inl uid
    | None => inr (ErrExternal "uid not found for blank node")
    end
  else
    match ParseUid ref with
    | (uid, None) => inl uid
    | (_, Some err) => inr err
    end.

Definition ToEdgeUsing (nq : NQuad) (newUids : gmap string Z)
  : DirectedEdge + error :=
  match resolve (Subject nq) newUids with
  | inr err => inr err
  | inl sUid =>
      if (0 <? String.length (ObjectId nq))%nat then
        match resolve (ObjectId nq) newUids with
        | inr err => inr err
        | inl oUid =>
            inl {| Entity := sUid; Attr := Predicate nq; Value := "";
                   ValueType := 0; ValueId := oUid; Label := NQuad_Label nq;
                   Lang := NQuad_Lang nq; Op := DirectedEdge_SET;
                   EdgeFacets := Facets nq |}
        end
      else
        inl {| Entity := sUid; Attr := Predicate nq;
               Value := GetDefaultVal (ObjectValue nq);
               ValueType := ObjectType nq; ValueId := 0;
               Label := NQuad_Label nq; Lang := NQuad_Lang nq;
               Op := DirectedEdge_SET; EdgeFacets := Facets nq |}
  end.

Definition getNodePredicates (entity readTs : Z) : list ValueList + error :=
  if bool_decide (entity = 5)
  then inl [ {| Values := [ {| Val := "p1" |}; {| Val := "p2" |} ] |} ]
  else inl [ {| Values := [] |} ].

Definition IsReversed (pred : string) : bool := bool_decide (pred = "p1").

Definition posting_Uids (pred : string) (entity readTs : Z) : list Z + error :=
  if bool_decide (pred = "p1") && bool_decide (entity = 5)
  then inl [7; 8] else inl [].

(** Grants the [num] identifiers that follow 1000. *)
Definition AssignUidsOverNetwork (num : Z) : AssignedIds + error :=
  inl {| StartId := 1001; EndId := 1000 + num |}.

Definition env (expand : bool) (lease : Z) : Env :=
  mkEnv Z expand lease
    (fun m => (Some (StartTs m), None))
    AssignUidsOverNetwork getNodePredicates IsReversed posting_Uids
    ParseUid SortAndValidate ToEdgeUsing
    (fun m => (map_to_list m).*1).

(** [S * *] against entity 5, and the administrative [* P *] statement. *)
Definition wildcardDelete (entity : Z) : DirectedEdge :=
  {| Entity := entity; Attr := Star; Value := Star; ValueType := 0;
     ValueId := 0; Label := ""; Lang := ""; Op := DirectedEdge_DEL;
     EdgeFacets := [] |}.

(** An edge given by its operation, entity, attribute, value and target,
    everything else unset. *)
Definition edge (op : DirectedEdge_Op) (entity : Z) (attr value : string)
    (valueId : Z) : DirectedEdge :=
  {| Entity := entity; Attr := attr; Value := value; ValueType := 0;
     ValueId := valueId; Label := ""; Lang := ""; Op := op; EdgeFacets := [] |}.

Definition nquad (subject predicate objectId : string)
    (objectValue : option ObjValue) (facets : list Facet) : NQuad :=
  {| Subject := subject; Predicate := predicate; ObjectId := objectId;
     ObjectValue := objectValue; NQuad_Label := ""; ObjectType := 0;
     NQuad_Lang := ""; Facets := facets |}.

Definition predicateDeletion : NQuad :=
  nquad Star "name" "" (Some (Value_DefaultVal Star)) [].

(** The delete of every predicate of entity 5, once and twice, and the
    same against entity 6, which has no predicate. *)
Definition deleteAll5 : Mutations :=
  {| Edges := [wildcardDelete 5]; StartTs := 1 |}.

Definition deleteAll5Twice : Mutations :=
  {| Edges := [wildcardDelete 5; wildcardDelete 5]; StartTs := 1 |}.

Definition deleteAll6 : Mutations :=
  {| Edges := [wildcardDelete 6]; StartTs := 1 |}.

Definition predicatesOf5 : ValueList :=
  {| Values := [ {| Val := "p1" |}; {| Val := "p2" |} ] |}.

(** Statements with known identifiers only, and with two blank nodes. *)
Definition knownOnly : list NQuad :=
  [nquad "5" "friend" "7" None []; nquad "8" "name" "" (Some (Value_StrVal "x")) []].

Definition twoBlank : list NQuad :=
  [nquad "_:b" "friend" "_:a" None []; nquad "_:b" "friend" "55" None []].

(** A mutation whose delete list asks for a predicate deletion behind a
    blank node that the identifier map does not know. *)
Definition unknownBlankThenDeletion : Mutation :=
  {| Mutation_Set := [];
     Mutation_Del := [nquad "_:x" "name" "" (Some (Value_StrVal "x")) [];
                      predicateDeletion] |}.

Definition setThenDeletion : Mutation :=
  {| Mutation_Set := [nquad "5" "friend" "7" None []];
     Mutation_Del := [nquad "8" "name" "" (Some (Value_StrVal "x")) [];
                      predicateDeletion;
                      nquad "9" "name" "" (Some (Value_StrVal "y")) []] |}.

Definition setAndDelete : Mutation :=
  {| Mutation_Set := [nquad "5" "friend" "7" None []];
     Mutation_Del := [nquad "8" "name" "" (Some (Value_StrVal "x")) []] |}.

Definition emptySubjectOnly : Mutation :=
  {| Mutation_Set := [nquad "" "name" "" (Some (Value_StrVal "x")) []];
     Mutation_Del := [] |}.

(** Collaborators as in [env], with expansion enabled and the ceiling at
    100, but with the given answers of storage (predicate sets) and of the
    lease authority. *)
Definition envWith (predicateSets : Z -> Z -> list ValueList + error)
    (lease : Z -> AssignedIds + error) : Env :=
  mkEnv Z true 100
    (fun m => (Some (StartTs m), None))
    lease predicateSets IsReversed posting_Uids
    ParseUid SortAndValidate ToEdgeUsing
    (fun m => (map_to_list m).*1).

Definition noPredicateSet (entity readTs : Z) : list ValueList + error := inl [].

Definition leaseRefused (num : Z) : AssignedIds + error :=
  inr (ErrExternal "no lease").

Definition leaseOfOne (num : Z) : AssignedIds + error :=
  inl {| StartId := 1001; EndId := 1001 |}.

(** 5 -friend-> 7 as a SET edge, the same with an operation kind outside
    the enum, and the pass-through delete of a predicate. *)
Definition friendEdge (op : DirectedEdge_Op) : DirectedEdge :=
  {| Entity := 5; Attr := "friend"; Value := ""; ValueType := 0; ValueId := 7;
     Label := ""; Lang := ""; Op := op; EdgeFacets := [] |}.

Definition passThroughEdge : DirectedEdge :=
  {| Entity := 0; Attr := "name"; Value := Star; ValueType := 0; ValueId := 0;
     Label := ""; Lang := ""; Op := DirectedEdge_DEL; EdgeFacets := [] |}.

Definition repeatedFacets : NQuad :=
  nquad "" "friend" "7" None
    [ {| Facet_Key := "since"; Facet_Value := "1" |};
      {| Facet_Key := "since"; Facet_Value := "2" |} ].

Definition unknownBlank : NQuad :=
  nquad "_:x" "name" "" (Some (Value_StrVal "x")) [].

Definition aboveLease : NQuad :=
  nquad "99999999" "name" "" (Some (Value_StrVal "x")) [].

End Sample.

(** ** Vocabulary for the properties *)

(** The test of line 52: the edge [expandEdges] hands on untouched. *)
Definition isPassThrough (edge : DirectedEdge) : bool :=
  bool_decide (Op edge = DirectedEdge_DEL)
  && bool_decide (Entity edge = 0)
  && bool_decide (Value edge = Star).

(** The reverse-bookkeeping edges of [pred] for the targets [objs]. *)
Definition reverseEdges (edge : DirectedEdge) (pred : string) (objs : list Z)
  : list DirectedEdge :=
  (fun obj => predicateEdge (Op edge) obj ("~" +:+ pred)) <$> objs.

(** What one iteration of the predicate loop appends: the narrowed copy,
    the bookkeeping edge and the reverse-bookkeeping edges, in this order. *)
Definition chunk (edge : DirectedEdge) (pred : string) (objs : list Z)
  : list DirectedEdge :=
  narrowTo edge pred :: predicateEdge (Op edge) (Entity edge) pred
  :: reverseEdges edge pred objs.

(** [edge] is a delete with the wildcard predicate, not of the pass-through
    shape, against an entity for which storage reports one list holding [K]
    named predicates at the read timestamp of [m]. *)
Definition wildcardDeleteOf `{Env} (m : Mutations) (K : nat)
    (edge : DirectedEdge) : Prop :=
  Op edge = DirectedEdge_DEL /\
  Attr edge = Star /\
  isPassThrough edge = false /\
  exists vl, getNodePredicates (Entity edge) (StartTs m) = inl [vl] /\
             length (livePreds (Values vl) []) = K.

(** A statement the loops of [ToInternal] do not skip. *)
Definition hasSubject (nq : NQuad) : Prop := Subject nq <> "".

#[global] Instance hasSubject_dec nq : Decision (hasSubject nq).
Proof. unfold hasSubject. apply _. Defined.

(** [e] is the edge the Set loop appends for [nq]: resolved from [nq] with
    its facets sorted, and stamped SET. *)
Definition setEdgeOf `{Env} (newUids : gmap string Z) (nq : NQuad)
    (e : DirectedEdge) : Prop :=
  exists fs e0,
    SortAndValidate (Facets nq) = (fs, None) /\
    ToEdgeUsing (withFacets nq fs) newUids = inl e0 /\
    e = setOp e0 DirectedEdge_SET.

(** [e] is the edge the Del loop appends for [nq]. *)
Definition delEdgeOf `{Env} (newUids : gmap string Z) (nq : NQuad)
    (e : DirectedEdge) : Prop :=
  exists e0, ToEdgeUsing nq newUids = inl e0 /\ e = setOp e0 DirectedEdge_DEL.

(** A reference that is a blank-node label. *)
Definition isBlank (ref : string) : bool := String.prefix "_:" ref.

(** A reference that passes the checks of [AssignUids]: it is empty, or it
    parses as an identifier that [verifyUid] accepts. *)
Definition refValid `{Env} (ref : string) : Prop :=
  ref = "" \/
  (snd (ParseUid ref) = None /\ verifyUid (fst (ParseUid ref)) = None).

(** [c] is a read of storage at the read timestamp [ts]. *)
Definition isReadAt (ts : Z) (c : Call) : bool :=
  match c with
  | Call_getNodePredicates _ readTs | Call_posting_Uids _ _ readTs =>
      bool_decide (readTs = ts)
  | _ => false
  end.

(** [c] is the call of the commit protocol. *)
Definition isCommit (c : Call) : bool :=
  match c with
  | Call_MutateOverNetwork _ => true
  | _ => false
  end.

(** The operation kind passes the assertion of line 50. *)
Definition declaredOp (edge : DirectedEdge) : Prop :=
  Op edge = DirectedEdge_DEL \/ Op edge = DirectedEdge_SET.

(** What [expandEdges] is expected to append for an edge with an explicit
    predicate and an explicit object, written out field by field: the edge
    itself; an edge of the same operation on the same entity, with the
    attribute _predicate_ and the predicate name as value; and for a
    reverse-indexed predicate an edge of the same operation on the edge's
    target, with the attribute _predicate_ and the predicate name behind
    the reverse marker as value. *)
Definition concreteExpansion `{Env} (edge : DirectedEdge) : list DirectedEdge :=
  edge
  :: {| Entity := Entity edge; Attr := "_predicate_"; Value := Attr edge;
        ValueType := 0; ValueId := 0; Label := ""; Lang := "";
        Op := Op edge; EdgeFacets := [] |}
  :: (if IsReversed (Attr edge)
      then [ {| Entity := ValueId edge; Attr := "_predicate_";
                Value := "~" +:+ Attr edge; ValueType := 0; ValueId := 0;
                Label := ""; Lang := ""; Op := Op edge; EdgeFacets := [] |} ]
      else []).

(** [second] run after [first] has returned [o1]: the outputs and the traces
    are concatenated, and an error or a failed assertion of [second] is the
    result. *)
Definition thenExpand (o1 : list DirectedEdge) (t1 : list Call)
    (second : Eff (list DirectedEdge + error)) : Eff (list DirectedEdge + error) :=
  (match fst second with
   | Done (inl o2) => Done (inl (o1 ++ o2))
   | other => other
   end, t1 ++ snd second).

(** [e] stems from the input edge [edge]: it has the same operation kind,
    and it is [edge] itself, a copy of it under another predicate, or a
    bookkeeping edge. *)
Definition originOf (edge e : DirectedEdge) : Prop :=
  Op e = Op edge /\
  (e = edge \/ (exists pred, e = narrowTo edge pred) \/ Attr e = "_predicate_").

(** The blank-node labels [AssignUids] meets: those among the subject and
    object references of the statements it does not skip. *)
Definition blankRef (ref : string) : gset string :=
  if isBlank ref then {[ ref ]} else ∅.

Fixpoint labelsOf (nquads : list NQuad) : gset string :=
  match nquads with
  | [] => ∅
  | nq :: rest =>
      (if isPredicateDeletion nq then ∅
       else blankRef (Subject nq) ∪ blankRef (ObjectId nq))
      ∪ labelsOf rest
  end.

(** A reference [AssignUids] accepts: a blank-node label, or a reference
    that is [refValid]. A statement it accepts: one it skips, or one whose
    subject and object references it accepts. *)
Definition refAccepted `{Env} (ref : string) : Prop :=
  isBlank ref = true \/ refValid ref.

Definition statementAccepted `{Env} (nq : NQuad) : Prop :=
  isPredicateDeletion nq = true \/
  (refAccepted (Subject nq) /\ refAccepted (ObjectId nq)).

(** * Properties *)

(** ** Machine integers *)

Lemma wrap64_small z : is_uint64 z -> wrap64 z = z.
Proof. intros Hz. unfold wrap64. apply Z.mod_small. exact Hz. Qed.

Lemma wrap64_range z : is_uint64 (wrap64 z).
Proof. unfold wrap64, is_uint64, uint64_modulus. apply Z.mod_pos_bound. lia. Qed.

(** ** verifyUid *)

(** C3, as amended: for a lease ceiling whose sum with the margin still fits
    in 64 bits, validation succeeds exactly for the identifiers up to
    ceiling + 10000 (so at ceiling + 10000 itself) and fails with the
    out-of-range error above it (so at ceiling + 10001, when that is an
    identifier at all). *)
Theorem verifyUid_margin `{Env} (uid : Z) :
  is_uint64 MaxLeaseId ->
  MaxLeaseId + 10000 < uint64_modulus ->
  is_uint64 uid ->
  (uid <= MaxLeaseId + 10000 -> verifyUid uid = None) /\
  (uid > MaxLeaseId + 10000 ->
   verifyUid uid = Some (ErrUidAboveLease uid MaxLeaseId)) /\
  verifyUid (MaxLeaseId + 10000) = None /\
  (is_uint64 (MaxLeaseId + 10001) ->
   verifyUid (MaxLeaseId + 10001)
   = Some (ErrUidAboveLease (MaxLeaseId + 10001) MaxLeaseId)).
Proof.
  intros Hc Hsum Hu. unfold verifyUid.
  rewrite wrap64_small by (unfold is_uint64 in *; lia).
  repeat split.
  - intros Hle. destruct (Z.gtb_spec uid (MaxLeaseId + 10000)); [lia | reflexivity].
  - intros Hgt. destruct (Z.gtb_spec uid (MaxLeaseId + 10000)); [reflexivity | lia].
  - destruct (Z.gtb_spec (MaxLeaseId + 10000) (MaxLeaseId + 10000)); [lia | reflexivity].
  - intros _.
    destruct (Z.gtb_spec (MaxLeaseId + 10001) (MaxLeaseId + 10000)); [reflexivity | lia].
Qed.

Lemma verifyUid_margin_witness :
  @verifyUid (Sample.env true 100) 10100 = None /\
  @verifyUid (Sample.env true 100) 10101 = Some (ErrUidAboveLease 10101 100).
Proof.
  split.
  - apply (@verifyUid_margin (Sample.env true 100) 10100);
      unfold is_uint64, uint64_modulus; simpl; lia.
  - apply (@verifyUid_margin (Sample.env true 100) 10101);
      unfold is_uint64, uint64_modulus; simpl; lia.
Defined.

(** C3 as stated fails where the sum wraps: with the ceiling at 2^64 - 1 the
    bound computed by the code is 9999, and the identifier 10000, far below
    ceiling + 10000, is refused. *)
Lemma verifyUid_margin_wraps :
  is_uint64 (@MaxLeaseId (Sample.env true 18446744073709551615)) /\
  is_uint64 10000 /\
  10000 <= @MaxLeaseId (Sample.env true 18446744073709551615) + 10000 /\
  @verifyUid (Sample.env true 18446744073709551615) 10000
  = Some (ErrUidAboveLease 10000 18446744073709551615).
Proof. unfold is_uint64, uint64_modulus. simpl. repeat split; lia. Qed.

(** ** ApplyMutations *)

Section ApplyMutationsFacts.

Context `{Env}.

Lemma rejectStar_disabled (edges : list DirectedEdge) :
  Config_ExpandEdge = false ->
  (exists mu, mu ∈ edges /\ Attr mu = Star) ->
  rejectStar edges = Some ErrExpandEdgeDisabled.
Proof.
  intros Hoff. induction edges as [|mu rest IH]; intros (e & Hin & Hstar).
  - inversion Hin.
  - simpl. rewrite Hoff. simpl.
    case_bool_decide as Hmu; simpl; [reflexivity |].
    apply IH. exists e. split; [| exact Hstar].
    apply elem_of_cons in Hin as [-> | Hin]; [contradiction | exact Hin].
Qed.

(** C6: with expansion disabled, a mutation holding an edge whose
    predicate is the wildcard marker is answered with the
    configuration-rejected error, no transaction context, and an empty
    trace: nothing was called, the commit call included. *)
Theorem ApplyMutations_expansion_disabled (m : Mutations) :
  Config_ExpandEdge = false ->
  (exists mu, mu ∈ Edges m /\ Attr mu = Star) ->
  ApplyMutations m = (Done (None, Some ErrExpandEdgeDisabled), []).
Proof.
  intros Hoff Hstar. unfold ApplyMutations. rewrite Hoff.
  rewrite (rejectStar_disabled _ Hoff Hstar). reflexivity.
Qed.

End ApplyMutationsFacts.

Lemma ApplyMutations_expansion_disabled_witness :
  @ApplyMutations (Sample.env false 100)
    {| Edges := [Sample.wildcardDelete 5]; StartTs := 1 |}
  = (Done (None, Some ErrExpandEdgeDisabled), []).
Proof.
  apply (@ApplyMutations_expansion_disabled (Sample.env false 100)).
  - reflexivity.
  - exists (Sample.wildcardDelete 5). split; [apply list_elem_of_here | reflexivity].
Defined.

(** ** expandEdges *)

Section ExpandFacts.

Context `{Env}.

Lemma appendReverse_app edge pred objs edges :
  appendReverse edge pred objs edges = edges ++ reverseEdges edge pred objs.
Proof.
  revert edges. induction objs as [|obj rest IH]; intros edges; simpl.
  - unfold reverseEdges. simpl. by rewrite app_nil_r.
  - rewrite IH. unfold reverseEdges. simpl. by rewrite <- app_assoc.
Qed.

Lemma expandPreds_done m edge preds edges out t :
  expandPreds m edge preds edges = (Done (inl out), t) ->
  exists suffix,
    out = edges ++ suffix /\
    (2 * length preds <= length suffix)%nat /\
    forall pred, pred ∈ preds -> narrowTo edge pred ∈ suffix.
Proof.
  revert edges out t.
  induction preds as [|pred rest IH]; intros edges out t Hrun.
  - simpl in Hrun. injection Hrun as <- _. exists []. rewrite app_nil_r.
    split; [done |]. split; [simpl; lia |]. intros p Hp. inversion Hp.
  - assert (Hstep : exists objs t',
               expandPreds m edge rest (edges ++ chunk edge pred objs)
               = (Done (inl out), t')).
    { cbn [expandPreds] in Hrun. rewrite <- !app_assoc in Hrun.
      destruct (IsReversed pred); cbn [negb] in Hrun.
      - case_bool_decide.
        + exists [ValueId edge], t.
          rewrite appendReverse_app, <- !app_assoc in Hrun. exact Hrun.
        + cbn in Hrun.
          destruct (posting_Uids pred (Entity edge) (StartTs m)) as [uids|err];
            [| discriminate Hrun].
          rewrite appendReverse_app, <- !app_assoc in Hrun.
          destruct (expandPreds m edge rest _) as [r t'] eqn:Hrec.
          injection Hrun as -> _. exists uids, t'. exact Hrec.
      - exists [], t. exact Hrun. }
    destruct Hstep as (objs & t' & Hrec).
    apply IH in Hrec as (suffix & -> & Hlen & Hin).
    exists (chunk edge pred objs ++ suffix).
    split; [by rewrite app_assoc |]. split.
    + rewrite length_app. simpl. lia.
    + intros p Hp. apply elem_of_app.
      apply elem_of_cons in Hp as [-> | Hp].
      * left. apply list_elem_of_here.
      * right. by apply Hin.
Qed.

Lemma expandPreds_total m edge preds edges :
  (forall pred, pred ∈ preds -> IsReversed pred = true -> Value edge = Star ->
     exists uids, posting_Uids pred (Entity edge) (StartTs m) = inl uids) ->
  exists out t, expandPreds m edge preds edges = (Done (inl out), t).
Proof.
  revert edges. induction preds as [|pred rest IH]; intros edges Hreads.
  - simpl. by eexists _, _.
  - assert (Hrest : forall edges', exists out t,
               expandPreds m edge rest edges' = (Done (inl out), t)).
    { intros edges'. apply IH. intros p Hp. apply Hreads.
      by apply list_elem_of_further. }
    cbn [expandPreds].
    destruct (IsReversed pred) eqn:Hrev; cbn [negb]; [| apply Hrest].
    case_bool_decide as Hval; [apply Hrest |].
    destruct (Hreads pred) as [uids Huids];
      [apply list_elem_of_here | exact Hrev | |].
    { destruct (decide (Value edge = Star)); [done | contradiction]. }
    cbn. rewrite Huids.
    destruct (Hrest (appendReverse edge pred uids
                ((edges ++ [narrowTo edge pred]) ++
                 [predicateEdge (Op edge) (Entity edge) pred])))
      as (out & t & ->).
    by eexists _, _.
Qed.

Lemma resolvePreds_wildcard m edge vl :
  Attr edge = Star ->
  getNodePredicates (Entity edge) (StartTs m) = inl [vl] ->
  resolvePreds m edge
  = (Done (inl (livePreds (Values vl) [])),
     [Call_getNodePredicates (Entity edge) (StartTs m)]).
Proof.
  intros Hattr Hget. unfold resolvePreds.
  case_bool_decide; [contradiction |]. cbn. by rewrite Hget.
Qed.

(** The edges an input edge is narrowed to are all in the output. *)
Lemma expandLoop_done m input edges out t :
  expandLoop m input edges = (Done (inl out), t) ->
  exists suffix,
    out = edges ++ suffix /\
    forall edge preds t0 pred,
      edge ∈ input -> isPassThrough edge = false ->
      resolvePreds m edge = (Done (inl preds), t0) ->
      pred ∈ preds -> narrowTo edge pred ∈ suffix.
Proof.
  revert edges out t.
  induction input as [|edge rest IH]; intros edges out t Hrun.
  - simpl in Hrun. injection Hrun as <- _. exists []. rewrite app_nil_r.
    split; [done |]. intros e ps t0 p He. inversion He.
  - cbn [expandLoop] in Hrun. fold (isPassThrough edge) in Hrun.
    destruct (negb _); [discriminate Hrun |].
    destruct (isPassThrough edge) eqn:Hpass.
    + apply IH in Hrun as (suffix & -> & Hin).
      exists (edge :: suffix). split; [by rewrite <- app_assoc |].
      intros e ps t0 p He Hnp Hres Hp.
      apply elem_of_cons in He as [-> | He]; [congruence |].
      apply list_elem_of_further. by eapply Hin.
    + destruct (resolvePreds m edge) as [[[preds|err]|msg] t1] eqn:Hres;
        cbn in Hrun; try discriminate Hrun.
      destruct (expandPreds m edge preds edges) as [[[mid|err]|msg] t2] eqn:Hpreds;
        cbn in Hrun; try discriminate Hrun.
      destruct (expandLoop m rest mid) as [r t3] eqn:Hrec.
      injection Hrun as -> _.
      apply expandPreds_done in Hpreds as (s1 & -> & _ & Hin1).
      apply IH in Hrec as (s2 & -> & Hin2).
      exists (s1 ++ s2). split; [by rewrite app_assoc |].
      intros e ps t0 p He Hnp Hres' Hp. apply elem_of_app.
      apply elem_of_cons in He as [-> | He].
      * left. apply Hin1. rewrite Hres in Hres'. by injection Hres' as <- _.
      * right. by eapply Hin2.
Qed.

Lemma expandLoop_count m K input edges :
  (forall edge, edge ∈ input -> wildcardDeleteOf m K edge) ->
  (forall edge pred, edge ∈ input ->
     exists uids, posting_Uids pred (Entity edge) (StartTs m) = inl uids) ->
  exists out t,
    expandLoop m input edges = (Done (inl out), t) /\
    (length edges + 2 * K * length input <= length out)%nat /\
    (K = 0%nat -> out = edges).
Proof.
  revert edges. induction input as [|edge rest IH]; intros edges Hshape Hreads.
  - simpl. eexists _, _. split; [reflexivity |]. split; [lia | done].
  - destruct (Hshape edge) as (Hop & Hattr & Hpass & vl & Hget & HK);
      [apply list_elem_of_here |].
    cbn [expandLoop]. fold (isPassThrough edge). rewrite Hpass, Hop.
    cbn [bool_decide decide_rel negb orb].
    rewrite bool_decide_eq_true_2 by done. cbn [negb orb].
    rewrite (resolvePreds_wildcard m edge vl Hattr Hget).
    destruct (expandPreds_total m edge (livePreds (Values vl) []) edges)
      as (mid & t1 & Hpreds).
    { intros pred _ _ _. apply Hreads, list_elem_of_here. }
    destruct (IH mid) as (out & t2 & Hrec & Hlen & Hzero).
    { intros e He. by apply Hshape, list_elem_of_further. }
    { intros e pred He. by apply Hreads, list_elem_of_further. }
    cbn. rewrite Hpreds. cbn. rewrite Hrec.
    eexists _, _. split; [reflexivity |].
    pose proof Hpreds as Hmid.
    apply expandPreds_done in Hmid as (suffix & -> & Hsuf & _).
    rewrite HK in Hsuf. rewrite length_app in Hlen. split.
    + cbn [length]. nia.
    + intros ->. rewrite Hzero by done.
      apply nil_length_inv in HK. rewrite HK in Hpreds. simpl in Hpreds.
      by injection Hpreds as <- _.
Qed.

(** C10: whenever expansion returns its edge list, every input edge that
    is expanded (not handed on untouched) has, for every predicate it
    stands for, an output edge that carries that predicate and agrees with
    the input edge on every other field: entity, operation kind, value,
    value type, target identifier, label, language and facets. *)
Theorem expandEdges_narrowed_copy m out edge preds t0 pred :
  outcome (expandEdges m) = Done (inl out) ->
  edge ∈ Edges m ->
  isPassThrough edge = false ->
  resolvePreds m edge = (Done (inl preds), t0) ->
  pred ∈ preds ->
  exists copy,
    copy ∈ out /\ copy = narrowTo edge pred /\
    Attr copy = pred /\
    Entity copy = Entity edge /\ Op copy = Op edge /\
    Value copy = Value edge /\ ValueType copy = ValueType edge /\
    ValueId copy = ValueId edge /\ Label copy = Label edge /\
    Lang copy = Lang edge /\ EdgeFacets copy = EdgeFacets edge.
Proof.
  intros Hrun Hin Hpass Hres Hpred. unfold outcome, expandEdges in Hrun.
  destruct (expandLoop m (Edges m) []) as [r t] eqn:Hloop.
  simpl in Hrun. subst r.
  apply expandLoop_done in Hloop as (suffix & -> & Hall).
  exists (narrowTo edge pred). split.
  - simpl. by eapply Hall.
  - by repeat split.
Qed.

(** C5, as amended: N deletes with the wildcard predicate, each against an
    entity with K named live predicates, expand (when the adjacency reads
    succeed) to at least 2 K N edges. So the output has never fewer than K
    edges once N >= 1, and strictly more than N edges when also K >= 1;
    with K = 0 it is empty. *)
Theorem expandEdges_count m K :
  (forall edge, edge ∈ Edges m -> wildcardDeleteOf m K edge) ->
  (forall edge pred, edge ∈ Edges m ->
     exists uids, posting_Uids pred (Entity edge) (StartTs m) = inl uids) ->
  exists out,
    outcome (expandEdges m) = Done (inl out) /\
    (2 * K * length (Edges m) <= length out)%nat /\
    (1 <= length (Edges m) -> K <= length out)%nat /\
    (1 <= length (Edges m) -> 1 <= K -> length (Edges m) < length out)%nat /\
    (K = 0%nat -> out = []).
Proof.
  intros Hshape Hreads.
  destruct (expandLoop_count m K (Edges m) [] Hshape Hreads)
    as (out & t & Hrun & Hlen & Hzero).
  exists out. unfold outcome, expandEdges. rewrite Hrun.
  simpl in Hlen. repeat split; [lia | nia | nia | exact Hzero].
Qed.

(** C4: one delete with wildcard predicate and wildcard object against an
    entity whose live predicates are p1 (reverse-indexed) and p2 (not)
    expands to exactly: the delete narrowed to p1, the bookkeeping edge of
    p1 (attribute _predicate_, value p1), one reverse-bookkeeping edge
    (value ~p1) per target of p1 read from storage, the delete narrowed to
    p2, and the bookkeeping edge of p2; nothing else, so no
    reverse-bookkeeping edge for p2. The groups come in the order in which
    storage lists the two predicates. Every edge is written out field by
    field: a narrowed delete is the input edge with the predicate replaced,
    a bookkeeping edge has the reserved attribute, the predicate name (or
    its name behind the reverse marker) as value, the entity (or the
    target) as entity, the operation DEL, and nothing else set. *)
Theorem expandEdges_fan_out m edge vl p1 p2 targets :
  Edges m = [edge] ->
  Op edge = DirectedEdge_DEL -> Attr edge = Star -> Value edge = Star ->
  Entity edge <> 0 ->
  getNodePredicates (Entity edge) (StartTs m) = inl [vl] ->
  Val <$> Values vl = [p1; p2] \/ Val <$> Values vl = [p2; p1] ->
  p1 <> "" -> p2 <> "" ->
  IsReversed p1 = true -> IsReversed p2 = false ->
  posting_Uids p1 (Entity edge) (StartTs m) = inl targets ->
  let narrowed := fun pred =>
    {| Entity := Entity edge; Attr := pred; Value := Star;
       ValueType := ValueType edge; ValueId := ValueId edge;
       Label := Label edge; Lang := Lang edge; Op := DirectedEdge_DEL;
       EdgeFacets := EdgeFacets edge |} in
  let bookkeeping := fun entity value =>
    {| Entity := entity; Attr := "_predicate_"; Value := value;
       ValueType := 0; ValueId := 0; Label := ""; Lang := "";
       Op := DirectedEdge_DEL; EdgeFacets := [] |} in
  let forP1 :=
    narrowed p1
    :: bookkeeping (Entity edge) p1
    :: ((fun target => bookkeeping target ("~" +:+ p1)) <$> targets) in
  let forP2 :=
    [narrowed p2; bookkeeping (Entity edge) p2] in
  exists out,
    outcome (expandEdges m) = Done (inl out) /\
    out ≡ₚ forP1 ++ forP2 /\
    (Val <$> Values vl = [p1; p2] -> out = forP1 ++ forP2) /\
    (Val <$> Values vl = [p2; p1] -> out = forP2 ++ forP1).
Proof.
  intros Hedges Hop Hattr Hval Hent Hget Hvals Hp1 Hp2 Hr1 Hr2 Hread
    narrowed bookkeeping forP1 forP2.
  assert (Hne : p1 <> p2) by (intros ->; congruence).
  assert (Hlive : forall p q, p <> "" -> q <> "" ->
            Val <$> Values vl = [p; q] -> livePreds (Values vl) [] = [p; q]).
  { intros p q Hp Hq Heq.
    destruct (Values vl) as [|[a] [|[b] [|? ?]]]; try discriminate Heq.
    injection Heq as -> ->. simpl.
    destruct p; [done |]. destruct q; [done |]. reflexivity. }
  assert (Hpass : isPassThrough edge = false).
  { unfold isPassThrough. rewrite (bool_decide_eq_false_2 (Entity edge = 0)) by done.
    by rewrite andb_false_r. }
  assert (Hrun : forall p q, livePreds (Values vl) [] = [p; q] ->
            (p = p1 /\ q = p2) \/ (p = p2 /\ q = p1) ->
            outcome (expandEdges m)
            = Done (inl (if bool_decide (p = p1) then forP1 ++ forP2
                         else forP2 ++ forP1))).
  { intros p q Hpq Hcase. unfold outcome, expandEdges. rewrite Hedges.
    cbn [expandLoop]. fold (isPassThrough edge). rewrite Hpass, Hop.
    rewrite bool_decide_eq_true_2 by done. cbn [negb orb].
    rewrite (resolvePreds_wildcard m edge vl Hattr Hget), Hpq.
    destruct Hcase as [[-> ->] | [-> ->]].
    - rewrite bool_decide_eq_true_2 by done.
      cbn [mbind Eff_bind expandPreds]. rewrite Hr1, Hr2, Hval. cbn [negb].
      rewrite bool_decide_eq_false_2 by (intros Hc; by apply Hc).
      cbn. rewrite Hread, Hop. cbn. rewrite appendReverse_app. cbn.
      unfold forP1, forP2, narrowed, bookkeeping, reverseEdges, narrowTo,
        predicateEdge.
      rewrite Hop, Hval. by rewrite <- !app_assoc.
    - rewrite bool_decide_eq_false_2 by (intros Hc; by apply Hne).
      cbn [mbind Eff_bind expandPreds]. rewrite Hr1, Hr2, Hval. cbn [negb].
      rewrite bool_decide_eq_false_2 by (intros Hc; by apply Hc).
      cbn. rewrite Hread, Hop. cbn. rewrite appendReverse_app. cbn.
      unfold forP1, forP2, narrowed, bookkeeping, reverseEdges, narrowTo,
        predicateEdge.
      by rewrite Hop, Hval. }
  destruct Hvals as [H12 | H21].
  - exists (forP1 ++ forP2). rewrite (Hrun p1 p2) by auto.
    rewrite bool_decide_eq_true_2 by done.
    split; [done |]. split; [done |]. split; [done |].
    intros H21. rewrite H12 in H21. injection H21 as ? _. contradiction.
  - exists (forP2 ++ forP1). rewrite (Hrun p2 p1) by auto.
    rewrite bool_decide_eq_false_2 by (intros Hc; by apply Hne).
    split; [done |]. split; [apply Permutation_app_comm |]. split; [| done].
    intros H12. rewrite H21 in H12. injection H12 as ? _. by subst.
Qed.

End ExpandFacts.

(** ** ToInternal *)

Section ToInternalFacts.

Context `{Env}.

Lemma parse_no_subject newUids nq op edges :
  ~ hasSubject nq -> parse newUids nq op edges = (edges, None).
Proof.
  unfold hasSubject, parse. intros Hno.
  destruct (Subject nq); [reflexivity |]. exfalso. by apply Hno.
Qed.

Lemma parse_subject newUids nq op edges :
  hasSubject nq ->
  parse newUids nq op edges
  = match ToEdgeUsing nq newUids with
    | inr err => (edges, Some (ErrWrap err))
    | inl edge => (edges ++ [setOp edge op], None)
    end.
Proof.
  unfold hasSubject, parse. intros Hs.
  destruct (Subject nq); [contradiction | reflexivity].
Qed.

Lemma translateDel_reaches newUids pre nq post edges :
  isPredicateDeletion nq = true ->
  translateDel newUids (pre ++ nq :: post) edges
  = (fst (translateDel newUids pre edges),
     Some (match snd (translateDel newUids pre edges) with
           | Some err => err
           | None => ErrPredicateDeletion
           end)).
Proof.
  intros Hshape. revert edges.
  induction pre as [|nq0 pre IH]; intros edges; simpl.
  - by rewrite Hshape.
  - destruct (isPredicateDeletion nq0); [reflexivity |].
    destruct (parse newUids nq0 DirectedEdge_DEL edges) as [edges' [err|]];
      [reflexivity | apply IH].
Qed.

(** C1, as amended: when the delete list holds a statement with wildcard
    subject and default-value wildcard object, ToInternal returns an
    error, and the edges it returns are those of the statements in front
    of that one: none for the statement itself or for a later one. The
    error is the one that points to alter whenever everything in front
    (the set list and the earlier deletes) translated; otherwise it is the
    error met there. *)
Theorem ToInternal_predicate_deletion set pre nq post newUids :
  isPredicateDeletion nq = true ->
  ToInternal {| Mutation_Set := set; Mutation_Del := pre ++ nq :: post |} newUids
  = (fst (ToInternal {| Mutation_Set := set; Mutation_Del := pre |} newUids),
     Some (match snd (ToInternal {| Mutation_Set := set; Mutation_Del := pre |}
                        newUids) with
           | Some err => err
           | None => ErrPredicateDeletion
           end)).
Proof.
  intros Hshape. unfold ToInternal. simpl.
  destruct (translateSet newUids set []) as [edges [err|]]; [reflexivity |].
  by apply translateDel_reaches.
Qed.

Lemma translateSet_done newUids set edges out :
  translateSet newUids set edges = (out, None) ->
  exists new,
    out = edges ++ new /\
    Forall2 (setEdgeOf newUids) (filter hasSubject set) new.
Proof.
  revert edges. induction set as [|nq rest IH]; intros edges Hrun.
  - simpl in Hrun. injection Hrun as <-. exists []. rewrite app_nil_r.
    split; [done | constructor].
  - simpl in Hrun.
    destruct (SortAndValidate (Facets nq)) as [fs [err|]] eqn:Hfs;
      [discriminate Hrun |].
    destruct (decide (hasSubject nq)) as [Hs | Hs].
    + rewrite parse_subject in Hrun by exact Hs.
      destruct (ToEdgeUsing (withFacets nq fs) newUids) as [e0|err] eqn:He0;
        [| discriminate Hrun].
      apply IH in Hrun as (new & -> & Hall).
      exists (setOp e0 DirectedEdge_SET :: new).
      split; [by rewrite <- app_assoc |].
      rewrite filter_cons_True by exact Hs.
      constructor; [| exact Hall]. by exists fs, e0.
    + rewrite parse_no_subject in Hrun by exact Hs.
      apply IH in Hrun as (new & -> & Hall). exists new.
      split; [done |]. by rewrite filter_cons_False.
Qed.

Lemma translateDel_done newUids del edges out :
  translateDel newUids del edges = (out, None) ->
  exists new,
    out = edges ++ new /\
    Forall2 (delEdgeOf newUids) (filter hasSubject del) new.
Proof.
  revert edges. induction del as [|nq rest IH]; intros edges Hrun.
  - simpl in Hrun. injection Hrun as <-. exists []. rewrite app_nil_r.
    split; [done | constructor].
  - simpl in Hrun.
    destruct (isPredicateDeletion nq); [discriminate Hrun |].
    destruct (decide (hasSubject nq)) as [Hs | Hs].
    + rewrite parse_subject in Hrun by exact Hs.
      destruct (ToEdgeUsing nq newUids) as [e0|err] eqn:He0;
        [| discriminate Hrun].
      apply IH in Hrun as (new & -> & Hall).
      exists (setOp e0 DirectedEdge_DEL :: new).
      split; [by rewrite <- app_assoc |].
      rewrite filter_cons_True by exact Hs.
      constructor; [| exact Hall]. by exists e0.
    + rewrite parse_no_subject in Hrun by exact Hs.
      apply IH in Hrun as (new & -> & Hall). exists new.
      split; [done |]. by rewrite filter_cons_False.
Qed.

Lemma filter_hasSubject_all (l : list NQuad) :
  (forall nq, nq ∈ l -> hasSubject nq) -> filter hasSubject l = l.
Proof.
  induction l as [|nq rest IH]; intros Hall; [reflexivity |].
  rewrite filter_cons_True by apply Hall, list_elem_of_here.
  f_equal. apply IH. intros q Hq. by apply Hall, list_elem_of_further.
Qed.

(** C9, as amended: when ToInternal returns no error, its output holds one
    edge for each statement that has a subject, and none for a statement
    whose subject is empty; the edges stand in the order of their
    statements, those of the set list (stamped SET) before those of the
    delete list (stamped DEL). So N statements give N edges when every
    subject is non-empty, and fewer otherwise. *)
Theorem ToInternal_order gmu newUids edges :
  ToInternal gmu newUids = (edges, None) ->
  exists setEdges delEdges,
    edges = setEdges ++ delEdges /\
    Forall2 (setEdgeOf newUids) (filter hasSubject (Mutation_Set gmu)) setEdges /\
    Forall2 (delEdgeOf newUids) (filter hasSubject (Mutation_Del gmu)) delEdges /\
    length edges
    = (length (filter hasSubject (Mutation_Set gmu))
       + length (filter hasSubject (Mutation_Del gmu)))%nat /\
    ((forall nq, nq ∈ Mutation_Set gmu ++ Mutation_Del gmu -> hasSubject nq) ->
     length edges = (length (Mutation_Set gmu) + length (Mutation_Del gmu))%nat).
Proof.
  intros Hrun. unfold ToInternal in Hrun.
  destruct (translateSet newUids (Mutation_Set gmu) []) as [mid [err|]] eqn:Hset;
    [discriminate Hrun |].
  apply translateSet_done in Hset as (setEdges & -> & Hs).
  apply translateDel_done in Hrun as (delEdges & -> & Hd).
  simpl app. exists setEdges, delEdges.
  assert (Hlen : length (setEdges ++ delEdges)
                 = (length (filter hasSubject (Mutation_Set gmu))
                    + length (filter hasSubject (Mutation_Del gmu)))%nat).
  { rewrite length_app.
    by rewrite (Forall2_length _ _ _ Hs), (Forall2_length _ _ _ Hd). }
  repeat split; try done.
  intros Hall. rewrite Hlen.
  rewrite !filter_hasSubject_all; [done | |];
    intros nq Hnq; apply Hall, elem_of_app; auto.
Qed.

End ToInternalFacts.

(** ** AssignUids *)

Section AssignUidsFacts.

Context `{Env}.

Lemma scanRef_not_blank ref newUids :
  isBlank ref = false -> fst (scanRef ref newUids) = newUids.
Proof.
  unfold isBlank, scanRef. intros ->.
  destruct (0 <? String.length ref)%nat; [| reflexivity].
  by destruct (ParseUid ref) as [uid [err|]].
Qed.

Lemma scanRef_valid ref newUids :
  isBlank ref = false -> refValid ref -> snd (scanRef ref newUids) = None.
Proof.
  unfold isBlank, scanRef, refValid. intros -> [-> | [Hparse Hverify]].
  - reflexivity.
  - destruct (0 <? String.length ref)%nat; [| reflexivity].
    destruct (ParseUid ref) as [uid [err|]]; [discriminate Hparse | exact Hverify].
Qed.

Lemma scanNQuads_no_blank nquads newUids :
  (forall nq, nq ∈ nquads ->
     isBlank (Subject nq) = false /\ isBlank (ObjectId nq) = false) ->
  fst (scanNQuads nquads newUids) = newUids /\
  ((forall nq, nq ∈ nquads ->
      refValid (Subject nq) /\ refValid (ObjectId nq)) ->
   snd (scanNQuads nquads newUids) = None).
Proof.
  induction nquads as [|nq rest IH]; intros Hno; [by split |].
  destruct (Hno nq) as [Hs Ho]; [apply list_elem_of_here |].
  destruct IH as [IHmap IHerr].
  { intros q Hq. by apply Hno, list_elem_of_further. }
  pose proof (scanRef_not_blank (Subject nq) newUids Hs) as Hms.
  pose proof (scanRef_not_blank (ObjectId nq) newUids Ho) as Hmo.
  cbn [scanNQuads]. destruct (_ && _).
  - split; [exact IHmap |]. intros Hvalid. apply IHerr.
    intros q Hq. by apply Hvalid, list_elem_of_further.
  - destruct (scanRef (Subject nq) newUids) as [m1 e1] eqn:H1.
    simpl in Hms. subst m1.
    destruct (scanRef (ObjectId nq) newUids) as [m2 e2] eqn:H2.
    simpl in Hmo. subst m2. split.
    + destruct e1; [reflexivity |].
      destruct e2; [reflexivity | exact IHmap].
    + intros Hvalid.
      destruct (Hvalid nq) as [Hvs Hvo]; [apply list_elem_of_here |].
      pose proof (scanRef_valid _ newUids Hs Hvs) as Hes.
      pose proof (scanRef_valid _ newUids Ho Hvo) as Heo.
      rewrite H1 in Hes. rewrite H2 in Heo. simpl in Hes, Heo. subst e1 e2.
      apply IHerr.
      intros q Hq. by apply Hvalid, list_elem_of_further.
Qed.

(** C7: for a statement list without blank-node labels, AssignUids makes
    no call at all, so no allocation request, and the map it returns is
    empty; the error next to it is nil when every non-empty reference
    parses and passes verifyUid. *)
Theorem AssignUids_no_blank nquads :
  (forall nq, nq ∈ nquads ->
     isBlank (Subject nq) = false /\ isBlank (ObjectId nq) = false) ->
  exists err,
    AssignUids nquads = (Done (∅, err), []) /\
    ((forall nq, nq ∈ nquads ->
        refValid (Subject nq) /\ refValid (ObjectId nq)) ->
     err = None).
Proof.
  intros Hno.
  destruct (scanNQuads_no_blank nquads ∅ Hno) as [Hmap Herr].
  unfold AssignUids.
  destruct (scanNQuads nquads ∅) as [newUids err] eqn:Hscan.
  simpl in Hmap, Herr. subst newUids.
  exists err. split; [| exact Herr].
  destruct err; reflexivity.
Qed.

(** The assignment loop, run over distinct keys with enough identifiers
    left up to [endId]: no assertion fails, the key at position [i] gets
    [curId + i], and the other entries of the map are untouched. *)
Lemma assignGenerated_spec keys curId endId (newUids : gmap string Z) :
  NoDup keys ->
  endId < uint64_modulus ->
  (keys <> [] -> 1 <= curId /\ curId + Z.of_nat (length keys) - 1 <= endId) ->
  exists assigned,
    assignGenerated keys curId endId newUids = (Done assigned, []) /\
    (forall k, k ∉ keys -> assigned !! k = newUids !! k) /\
    (forall i k, keys !! i = Some k -> assigned !! k = Some (curId + Z.of_nat i)).
Proof.
  intros Hnd Hend. revert curId newUids Hnd.
  induction keys as [|k rest IH]; intros curId newUids Hnd Hpre.
  - exists newUids. split; [reflexivity |]. split; [done |].
    intros i k Hi. by rewrite lookup_nil in Hi.
  - destruct Hpre as [Hpos Hfit]; [done |]. cbn [length] in Hfit.
    apply NoDup_cons in Hnd as [Hfresh Hnd].
    cbn [assignGenerated].
    rewrite bool_decide_eq_true_2 by lia.
    destruct (Z.leb_spec curId endId) as [_ | Hgt]; [| lia]. cbn [andb].
    destruct (IH (wrap64 (curId + 1)) (<[k := curId]> newUids) Hnd)
      as (assigned & Hrun & Hout & Hin).
    { intros Hne. destruct rest as [|k' rest']; [done |]. cbn [length] in *.
      rewrite wrap64_small by (unfold is_uint64; lia). lia. }
    exists assigned. split; [exact Hrun |]. split.
    + intros k' Hk'. apply not_elem_of_cons in Hk' as [Hne Hk'].
      rewrite Hout by exact Hk'. by rewrite lookup_insert_ne.
    + intros [|i] k' Hi; simpl in Hi.
      * injection Hi as <-. rewrite Hout by exact Hfresh.
        rewrite lookup_insert_eq. f_equal. lia.
      * rewrite (Hin i k' Hi). f_equal.
        destruct rest as [|k'' rest']; [by rewrite lookup_nil in Hi |].
        cbn [length] in *.
        rewrite wrap64_small by (unfold is_uint64; lia). lia.
Qed.

(** C8: when the lease authority answers with a range that starts at 1 or
    above and holds at least as many identifiers as the map has labels,
    AssignUids returns (the assertion in the loop never fails), the map it
    returns has the same labels, every label carries an identifier of the
    granted range, and no two labels carry the same one. *)
Theorem AssignUids_assignment nquads newUids res :
  range_visits_each_key_once ->
  scanNQuads nquads ∅ = (newUids, None) ->
  AssignUidsOverNetwork (Z.of_nat (size newUids)) = inl res ->
  1 <= StartId res ->
  EndId res < uint64_modulus ->
  Z.of_nat (size newUids) <= EndId res - StartId res + 1 ->
  exists assigned,
    outcome (AssignUids nquads) = Done (assigned, None) /\
    dom assigned = dom newUids /\
    (forall k id, assigned !! k = Some id ->
       StartId res <= id <= EndId res /\
       id < StartId res + Z.of_nat (size newUids)) /\
    (forall k1 k2 id,
       assigned !! k1 = Some id -> assigned !! k2 = Some id -> k1 = k2).
Proof.
  intros Horder Hscan Hgrant Hstart Hend Hroom.
  pose proof (Horder newUids) as Hperm.
  assert (Hnd : NoDup (rangeKeys newUids)).
  { rewrite Hperm. apply NoDup_fst_map_to_list. }
  assert (Hlen : length (rangeKeys newUids) = size newUids).
  { rewrite Hperm, length_fmap. apply length_map_to_list. }
  assert (Hkeys : forall k, k ∈ rangeKeys newUids <-> is_Some (newUids !! k)).
  { intros k. rewrite Hperm, list_elem_of_fmap. split.
    - intros ([k' v] & -> & Hkv). apply elem_of_map_to_list in Hkv. by exists v.
    - intros [v Hv]. exists (k, v). split; [done |]. by apply elem_of_map_to_list. }
  destruct (assignGenerated_spec (rangeKeys newUids) (StartId res) (EndId res)
              newUids Hnd Hend) as (assigned & Hrun & Hout & Hin).
  { intros _. rewrite Hlen. lia. }
  assert (Hwhere : forall k id, assigned !! k = Some id ->
            exists i, rangeKeys newUids !! i = Some k /\
                      id = StartId res + Z.of_nat i).
  { intros k id Hk.
    destruct (decide (k ∈ rangeKeys newUids)) as [Hin' | Hnot].
    - apply list_elem_of_lookup in Hin' as [i Hi]. exists i. split; [done |].
      rewrite (Hin i k Hi) in Hk. by injection Hk as <-.
    - exfalso. apply Hnot, Hkeys. rewrite <- (Hout k Hnot). by exists id. }
  exists assigned. split; [| split; [| split]].
  - unfold outcome, AssignUids. rewrite Hscan.
    destruct (Z.gtb_spec (Z.of_nat (size newUids)) 0) as [Hsome | Hnone].
    + cbn. rewrite Hgrant. cbn. by rewrite Hrun.
    + assert (Hzero : size newUids = 0%nat) by lia.
      rewrite Hzero in Hlen. apply nil_length_inv in Hlen.
      rewrite Hlen in Hrun. simpl in Hrun. by injection Hrun as <-.
  - apply set_eq. intros k. rewrite !elem_of_dom.
    destruct (decide (k ∈ rangeKeys newUids)) as [Hin' | Hnot].
    + split; intros _; [by apply Hkeys |].
      apply list_elem_of_lookup in Hin' as [i Hi]. rewrite (Hin i k Hi). by eexists.
    + by rewrite (Hout k Hnot).
  - intros k id Hk. destruct (Hwhere k id Hk) as (i & Hi & ->).
    apply lookup_lt_Some in Hi. rewrite Hlen in Hi. lia.
  - intros k1 k2 id Hk1 Hk2.
    destruct (Hwhere k1 id Hk1) as (i1 & Hi1 & Hid1).
    destruct (Hwhere k2 id Hk2) as (i2 & Hi2 & Hid2).
    assert (i1 = i2) by lia. subst i2. rewrite Hi1 in Hi2. by injection Hi2.
Qed.

End AssignUidsFacts.

(** ** Concrete requests *)

Lemma expandEdges_narrowed_copy_witness :
  exists copy,
    copy = narrowTo (Sample.wildcardDelete 5) "p1" /\
    Attr copy = "p1" /\ Entity copy = 5 /\ Op copy = DirectedEdge_DEL /\
    Value copy = Star.
Proof.
  pose (out := match outcome (@expandEdges (Sample.env true 100) Sample.deleteAll5) with
              | Done (inl edges) => edges
              | _ => []
              end).
  destruct (@expandEdges_narrowed_copy (Sample.env true 100) Sample.deleteAll5
              out (Sample.wildcardDelete 5) ["p1"; "p2"]
              [Call_getNodePredicates 5 1] "p1")
    as (copy & _ & Hcopy & Hattr & Hent & Hop & Hval & _).
  - vm_compute. reflexivity.
  - apply list_elem_of_here.
  - reflexivity.
  - vm_compute. reflexivity.
  - apply list_elem_of_here.
  - exists copy. repeat split; assumption.
Defined.

Lemma expandEdges_count_witness :
  exists out,
    outcome (@expandEdges (Sample.env true 100) Sample.deleteAll5Twice)
    = Done (inl out) /\
    (8 <= length out)%nat.
Proof.
  destruct (@expandEdges_count (Sample.env true 100) Sample.deleteAll5Twice 2)
    as (out & Hrun & Hlen & _).
  - intros edge Hin.
    assert (edge = Sample.wildcardDelete 5) as ->.
    { apply elem_of_cons in Hin as [-> | Hin]; [done |].
      apply elem_of_cons in Hin as [-> | Hin]; [done | inversion Hin]. }
    repeat split. exists Sample.predicatesOf5. split; reflexivity.
  - intros edge pred Hin.
    assert (edge = Sample.wildcardDelete 5) as ->.
    { apply elem_of_cons in Hin as [-> | Hin]; [done |].
      apply elem_of_cons in Hin as [-> | Hin]; [done | inversion Hin]. }
    simpl. unfold Sample.posting_Uids. destruct (_ && _); by eexists.
  - exists out. split; [exact Hrun | exact Hlen].
Defined.

Lemma expandEdges_fan_out_witness :
  outcome (@expandEdges (Sample.env true 100) Sample.deleteAll5)
  = Done (inl [Sample.edge DirectedEdge_DEL 5 "p1" "*" 0;
               Sample.edge DirectedEdge_DEL 5 "_predicate_" "p1" 0;
               Sample.edge DirectedEdge_DEL 7 "_predicate_" "~p1" 0;
               Sample.edge DirectedEdge_DEL 8 "_predicate_" "~p1" 0;
               Sample.edge DirectedEdge_DEL 5 "p2" "*" 0;
               Sample.edge DirectedEdge_DEL 5 "_predicate_" "p2" 0]).
Proof.
  destruct (@expandEdges_fan_out (Sample.env true 100) Sample.deleteAll5
              (Sample.wildcardDelete 5) Sample.predicatesOf5 "p1" "p2" [7; 8]
              eq_refl eq_refl eq_refl eq_refl)
    as (out & Hrun & _ & Hexact & _).
  - discriminate.
  - reflexivity.
  - left. reflexivity.
  - discriminate.
  - discriminate.
  - reflexivity.
  - reflexivity.
  - reflexivity.
  - rewrite Hrun, Hexact by reflexivity. reflexivity.
Defined.

(** C5 as stated fails for an entity without live predicates: the one
    wildcard delete against it expands to no edge at all, so the edge count
    goes from one to zero. *)
Lemma expandEdges_no_live_predicates :
  (forall edge, edge ∈ Edges Sample.deleteAll6 ->
     @wildcardDeleteOf (Sample.env true 100) Sample.deleteAll6 0 edge) /\
  @expandEdges (Sample.env true 100) Sample.deleteAll6
  = (Done (inl []), [Call_getNodePredicates 6 1]) /\
  ~ (length (Edges Sample.deleteAll6) < length (@nil DirectedEdge))%nat.
Proof.
  split; [| split].
  - intros edge Hin.
    apply elem_of_cons in Hin as [-> | Hin]; [| inversion Hin].
    repeat split. eexists. split; reflexivity.
  - reflexivity.
  - simpl. lia.
Qed.

Lemma ToInternal_predicate_deletion_witness :
  exists edge,
    @ToInternal (Sample.env true 100) Sample.setThenDeletion ∅
    = ([setOp edge DirectedEdge_SET;
        {| Entity := 8; Attr := "name"; Value := ""; ValueType := 0;
           ValueId := 0; Label := ""; Lang := ""; Op := DirectedEdge_DEL;
           EdgeFacets := [] |}],
       Some ErrPredicateDeletion) /\
    Entity edge = 5 /\ ValueId edge = 7.
Proof.
  pose proof (@ToInternal_predicate_deletion (Sample.env true 100)
                [Sample.nquad "5" "friend" "7" None []]
                [Sample.nquad "8" "name" "" (Some (Value_StrVal "x")) []]
                Sample.predicateDeletion
                [Sample.nquad "9" "name" "" (Some (Value_StrVal "y")) []]
                ∅ eq_refl) as Hrun.
  eexists. split; [exact Hrun |]. split; reflexivity.
Defined.

(** C1 as stated fails when a statement in front of the predicate deletion
    cannot be translated: here a blank node the identifier map does not
    hold. The error returned is the one of that statement, wrapped, not the
    one that points to alter. *)
Lemma ToInternal_earlier_error :
  Sample.predicateDeletion ∈ Mutation_Del Sample.unknownBlankThenDeletion /\
  isPredicateDeletion Sample.predicateDeletion = true /\
  @ToInternal (Sample.env true 100) Sample.unknownBlankThenDeletion ∅
  = ([], Some (ErrWrap (ErrExternal "uid not found for blank node"))) /\
  snd (@ToInternal (Sample.env true 100) Sample.unknownBlankThenDeletion ∅)
  <> Some ErrPredicateDeletion.
Proof.
  split; [| split; [| split]].
  - apply list_elem_of_further, list_elem_of_here.
  - reflexivity.
  - reflexivity.
  - discriminate.
Qed.


Lemma ToInternal_order_witness :
  length (fst (@ToInternal (Sample.env true 100) Sample.setAndDelete ∅)) = 2%nat.
Proof.
  destruct (@ToInternal_order (Sample.env true 100) Sample.setAndDelete ∅
              (fst (@ToInternal (Sample.env true 100) Sample.setAndDelete ∅))
              eq_refl)
    as (setEdges & delEdges & _ & _ & _ & _ & Hall).
  apply Hall. intros nq Hin.
  apply elem_of_cons in Hin as [-> | Hin]; [done |].
  apply elem_of_cons in Hin as [-> | Hin]; [done | inversion Hin].
Defined.

(** C9 as stated fails for a statement without subject: it is skipped
    without error, so one statement gives no edge. *)
Lemma ToInternal_skips_empty_subject :
  length (Mutation_Set Sample.emptySubjectOnly
          ++ Mutation_Del Sample.emptySubjectOnly) = 1%nat /\
  @ToInternal (Sample.env true 100) Sample.emptySubjectOnly ∅ = ([], None).
Proof. split; reflexivity. Qed.

Lemma AssignUids_no_blank_witness :
  @AssignUids (Sample.env true 100) Sample.knownOnly = (Done (∅, None), []).
Proof.
  destruct (@AssignUids_no_blank (Sample.env true 100) Sample.knownOnly)
    as (err & Hrun & Herr).
  - intros nq Hin.
    apply elem_of_cons in Hin as [-> | Hin]; [by split |].
    apply elem_of_cons in Hin as [-> | Hin]; [by split | inversion Hin].
  - rewrite Hrun, Herr; [reflexivity |].
    intros nq Hin.
    apply elem_of_cons in Hin as [-> | Hin].
    { split; right; split; reflexivity. }
    apply elem_of_cons in Hin as [-> | Hin]; [| inversion Hin].
    split; [right; split; reflexivity | by left].
Defined.

Lemma AssignUids_assignment_witness :
  exists assigned,
    outcome (@AssignUids (Sample.env true 100) Sample.twoBlank)
    = Done (assigned, None) /\
    dom assigned = {[ "_:a"; "_:b" ]} /\
    (forall k id, assigned !! k = Some id -> 1001 <= id <= 1002).
Proof.
  destruct (@AssignUids_assignment (Sample.env true 100) Sample.twoBlank
              (<["_:a" := 0]> (<["_:b" := 0]> ∅))
              {| StartId := 1001; EndId := 1002 |})
    as (assigned & Hrun & Hdom & Hrange & _).
  - intros m. reflexivity.
  - vm_compute. reflexivity.
  - vm_compute. reflexivity.
  - simpl. lia.
  - unfold uint64_modulus. simpl. lia.
  - vm_compute. discriminate.
  - exists assigned. split; [exact Hrun |]. split.
    + rewrite Hdom. rewrite !dom_insert_L, dom_empty_L. set_solver.
    + intros k id Hk. apply Hrange in Hk. simpl in Hk. lia.
Defined.

(** * Further properties *)

(** ** expandEdges: what it calls, when it returns, how it composes *)

Section ExpandMore.

Context `{Env}.

Lemma expandPreds_step m edge pred rest edges out t :
  expandPreds m edge (pred :: rest) edges = (Done (inl out), t) ->
  exists objs t',
    expandPreds m edge rest (edges ++ chunk edge pred objs) = (Done (inl out), t').
Proof.
  intros Hrun. cbn [expandPreds] in Hrun. rewrite <- !app_assoc in Hrun.
  destruct (IsReversed pred); cbn [negb] in Hrun.
  - case_bool_decide.
    + exists [ValueId edge], t.
      rewrite appendReverse_app, <- !app_assoc in Hrun. exact Hrun.
    + cbn in Hrun.
      destruct (posting_Uids pred (Entity edge) (StartTs m)) as [uids|err];
        [| discriminate Hrun].
      rewrite appendReverse_app, <- !app_assoc in Hrun.
      destruct (expandPreds m edge rest _) as [r t'] eqn:Hrec.
      injection Hrun as -> _. exists uids, t'. exact Hrec.
  - exists [], t. exact Hrun.
Qed.

Lemma expandPreds_trace m edge preds edges :
  Forall (fun c => isReadAt (StartTs m) c = true)
    (snd (expandPreds m edge preds edges)).
Proof.
  revert edges. induction preds as [|pred rest IH]; intros edges.
  - constructor.
  - cbn [expandPreds]. destruct (IsReversed pred); cbn [negb]; [| apply IH].
    case_bool_decide; [apply IH |]. cbn.
    destruct (posting_Uids pred (Entity edge) (StartTs m)) as [uids|err].
    + specialize (IH (appendReverse edge pred uids
                        ((edges ++ [narrowTo edge pred]) ++
                         [predicateEdge (Op edge) (Entity edge) pred]))).
      destruct (expandPreds m edge rest _) as [r t']. simpl in *.
      constructor; [by apply bool_decide_eq_true_2 | exact IH].
    + simpl. constructor; [by apply bool_decide_eq_true_2 | constructor].
Qed.

Lemma expandPreds_returns m edge preds edges :
  exists r, fst (expandPreds m edge preds edges) = Done r.
Proof.
  revert edges. induction preds as [|pred rest IH]; intros edges.
  - by eexists.
  - cbn [expandPreds]. destruct (IsReversed pred); cbn [negb]; [| apply IH].
    case_bool_decide; [apply IH |]. cbn.
    destruct (posting_Uids pred (Entity edge) (StartTs m)) as [uids|err].
    + specialize (IH (appendReverse edge pred uids
                        ((edges ++ [narrowTo edge pred]) ++
                         [predicateEdge (Op edge) (Entity edge) pred]))).
      destruct (expandPreds m edge rest _) as [r t']. exact IH.
    + by eexists.
Qed.

Lemma resolvePreds_trace m edge :
  Forall (fun c => isReadAt (StartTs m) c = true) (snd (resolvePreds m edge)).
Proof.
  unfold resolvePreds. case_bool_decide; [constructor |]. cbn.
  assert (Hread : isReadAt (StartTs m)
                    (Call_getNodePredicates (Entity edge) (StartTs m)) = true)
    by by apply bool_decide_eq_true_2.
  destruct (getNodePredicates (Entity edge) (StartTs m)) as [[|vl [|? ?]]|err];
    simpl; by repeat constructor.
Qed.

Lemma resolvePreds_returns m edge :
  exists r, fst (resolvePreds m edge) = Done r.
Proof.
  unfold resolvePreds. case_bool_decide; [by eexists |]. cbn.
  destruct (getNodePredicates (Entity edge) (StartTs m)) as [[|vl [|? ?]]|err];
    by eexists.
Qed.

Lemma expandLoop_trace m input edges :
  Forall (fun c => isReadAt (StartTs m) c = true) (snd (expandLoop m input edges)).
Proof.
  revert edges. induction input as [|edge rest IH]; intros edges.
  - constructor.
  - cbn [expandLoop]. destruct (negb _); [constructor |].
    destruct (_ && _); [apply IH |].
    pose proof (resolvePreds_trace m edge) as Hres.
    destruct (resolvePreds m edge) as [[[preds|err]|msg] t1]; cbn in *;
      try (by rewrite ?app_nil_r).
    pose proof (expandPreds_trace m edge preds edges) as Hpreds.
    destruct (expandPreds m edge preds edges) as [[[mid|err]|msg] t2]; cbn in *;
      try (rewrite ?app_nil_r; by apply Forall_app).
    specialize (IH mid). destruct (expandLoop m rest mid) as [r t3]. cbn in *.
    rewrite !Forall_app. auto.
Qed.

Lemma expandLoop_returns m input edges :
  (forall edge, edge ∈ input -> declaredOp edge) ->
  exists r, fst (expandLoop m input edges) = Done r.
Proof.
  revert edges. induction input as [|edge rest IH]; intros edges Hops.
  - by eexists.
  - assert (Hrest : forall acc, exists r, fst (expandLoop m rest acc) = Done r).
    { intros acc. apply IH. intros e He. by apply Hops, list_elem_of_further. }
    cbn [expandLoop].
    destruct (Hops edge (list_elem_of_here _ _)) as [Hop | Hop]; rewrite Hop.
    + rewrite bool_decide_eq_true_2 by done. cbn [orb negb andb].
      destruct (bool_decide (Entity edge = 0) && bool_decide (Value edge = Star));
        [apply Hrest |].
      destruct (resolvePreds_returns m edge) as [r1 Hr1].
      destruct (resolvePreds m edge) as [o1 t1]. simpl in Hr1. subst o1.
      destruct r1 as [preds|err]; cbn; [| by eexists].
      destruct (expandPreds_returns m edge preds edges) as [r2 Hr2].
      destruct (expandPreds m edge preds edges) as [o2 t2]. simpl in Hr2. subst o2.
      destruct r2 as [mid|err]; cbn; [| by eexists].
      destruct (Hrest mid) as [r3 Hr3].
      destruct (expandLoop m rest mid) as [o3 t3]. simpl in *. by eexists.
    + rewrite (bool_decide_eq_false_2 (DirectedEdge_SET = DirectedEdge_DEL))
        by discriminate.
      rewrite bool_decide_eq_true_2 by done. cbn [orb negb andb].
      destruct (resolvePreds_returns m edge) as [r1 Hr1].
      destruct (resolvePreds m edge) as [o1 t1]. simpl in Hr1. subst o1.
      destruct r1 as [preds|err]; cbn; [| by eexists].
      destruct (expandPreds_returns m edge preds edges) as [r2 Hr2].
      destruct (expandPreds m edge preds edges) as [o2 t2]. simpl in Hr2. subst o2.
      destruct r2 as [mid|err]; cbn; [| by eexists].
      destruct (Hrest mid) as [r3 Hr3].
      destruct (expandLoop m rest mid) as [o3 t3]. simpl in *. by eexists.
Qed.

Lemma expandPreds_acc m edge preds acc edges :
  expandPreds m edge preds (acc ++ edges)
  = thenExpand acc [] (expandPreds m edge preds edges).
Proof.
  revert edges. induction preds as [|pred rest IH]; intros edges.
  - reflexivity.
  - cbn [expandPreds]. rewrite !appendReverse_app, <- !app_assoc.
    destruct (IsReversed pred); cbn [negb]; [| apply IH].
    case_bool_decide; [apply IH |]. cbn.
    destruct (posting_Uids pred (Entity edge) (StartTs m)) as [uids|err];
      [| reflexivity].
    rewrite !appendReverse_app, <- !app_assoc. rewrite IH.
    by destruct (expandPreds m edge rest _) as [[[o|e]|msg] t].
Qed.

Lemma expandLoop_acc m input acc edges :
  expandLoop m input (acc ++ edges)
  = thenExpand acc [] (expandLoop m input edges).
Proof.
  revert edges. induction input as [|edge rest IH]; intros edges.
  - reflexivity.
  - cbn [expandLoop]. destruct (negb _); [reflexivity |].
    destruct (_ && _); [rewrite <- app_assoc; apply IH |].
    destruct (resolvePreds m edge) as [[[preds|err]|msg] t1]; cbn;
      try reflexivity.
    rewrite expandPreds_acc.
    destruct (expandPreds m edge preds edges) as [[[mid|err]|msg] t2]; cbn;
      try reflexivity.
    rewrite IH.
    by destruct (expandLoop m rest mid) as [[[o|e]|msg] t3].
Qed.

Lemma expandLoop_app m pre post edges mid t1 :
  expandLoop m pre edges = (Done (inl mid), t1) ->
  expandLoop m (pre ++ post) edges
  = (fst (expandLoop m post mid), t1 ++ snd (expandLoop m post mid)).
Proof.
  revert edges mid t1. induction pre as [|edge rest IH]; intros edges mid t1 Hrun.
  - simpl in Hrun. injection Hrun as <- <-. simpl.
    by destruct (expandLoop m post edges).
  - cbn [expandLoop app] in *. destruct (negb _); [discriminate Hrun |].
    destruct (_ && _); [by apply IH |].
    destruct (resolvePreds m edge) as [[[preds|err]|msg] ta]; cbn in *;
      try discriminate Hrun.
    destruct (expandPreds m edge preds edges) as [[[mid1|err]|msg] tb]; cbn in *;
      try discriminate Hrun.
    destruct (expandLoop m rest mid1) as [r tc] eqn:Hrest.
    injection Hrun as -> <-.
    rewrite (IH _ _ _ Hrest). cbn. by rewrite !app_assoc.
Qed.

Lemma expandPreds_ts m1 m2 edge preds edges :
  StartTs m1 = StartTs m2 ->
  expandPreds m1 edge preds edges = expandPreds m2 edge preds edges.
Proof.
  intros Hts. revert edges. induction preds as [|pred rest IH]; intros edges.
  - reflexivity.
  - cbn [expandPreds]. rewrite Hts.
    destruct (IsReversed pred); cbn [negb]; [| apply IH].
    case_bool_decide; [apply IH |]. cbn.
    destruct (posting_Uids pred (Entity edge) (StartTs m2)); [| reflexivity].
    by rewrite IH.
Qed.

Lemma expandLoop_ts m1 m2 input edges :
  StartTs m1 = StartTs m2 ->
  expandLoop m1 input edges = expandLoop m2 input edges.
Proof.
  intros Hts. revert edges. induction input as [|edge rest IH]; intros edges.
  - reflexivity.
  - cbn [expandLoop]. destruct (negb _); [reflexivity |].
    destruct (_ && _); [apply IH |].
    unfold resolvePreds. rewrite Hts.
    destruct (if bool_decide (Attr edge <> Star) then _ else _)
      as [[[preds|err]|msg] t1]; cbn; try reflexivity.
    rewrite (expandPreds_ts m1 m2 _ _ _ Hts).
    destruct (expandPreds m2 edge preds edges) as [[[mid|err]|msg] t2]; cbn;
      try reflexivity.
    by rewrite IH.
Qed.

Lemma expandPreds_origin m edge preds edges out t :
  expandPreds m edge preds edges = (Done (inl out), t) ->
  exists suffix, out = edges ++ suffix /\ Forall (originOf edge) suffix.
Proof.
  revert edges out t.
  induction preds as [|pred rest IH]; intros edges out t Hrun.
  - simpl in Hrun. injection Hrun as <- _. exists []. by rewrite app_nil_r.
  - apply expandPreds_step in Hrun as (objs & t' & Hrec).
    apply IH in Hrec as (suffix & -> & Hall).
    exists (chunk edge pred objs ++ suffix). split; [by rewrite app_assoc |].
    apply Forall_app. split; [| exact Hall].
    unfold chunk, reverseEdges.
    constructor; [split; [done | right; left; by exists pred] |].
    constructor; [split; [done | by right; right] |].
    apply Forall_fmap, Forall_forall. intros obj _.
    split; [done | by right; right].
Qed.

Lemma expandLoop_origin m input edges out t :
  expandLoop m input edges = (Done (inl out), t) ->
  exists suffix,
    out = edges ++ suffix /\
    Forall (fun e => exists edge, edge ∈ input /\ originOf edge e) suffix.
Proof.
  revert edges out t.
  induction input as [|edge rest IH]; intros edges out t Hrun.
  - simpl in Hrun. injection Hrun as <- _. exists []. by rewrite app_nil_r.
  - assert (Hweaken : forall suffix,
              Forall (fun e => exists edge, edge ∈ rest /\ originOf edge e) suffix ->
              Forall (fun e => exists edge0, edge0 ∈ edge :: rest /\ originOf edge0 e)
                suffix).
    { intros suffix Hs. eapply Forall_impl; [exact Hs |].
      intros e (e0 & He0 & Hor). exists e0. split; [by apply list_elem_of_further | exact Hor]. }
    cbn [expandLoop] in Hrun. destruct (negb _); [discriminate Hrun |].
    destruct (_ && _).
    + apply IH in Hrun as (suffix & -> & Hall).
      exists (edge :: suffix). split; [by rewrite <- app_assoc |].
      constructor; [| by apply Hweaken].
      exists edge. split; [apply list_elem_of_here |]. split; [done | by left].
    + destruct (resolvePreds m edge) as [[[preds|err]|msg] t1];
        cbn in Hrun; try discriminate Hrun.
      destruct (expandPreds m edge preds edges) as [[[mid|err]|msg] t2] eqn:Hpreds;
        cbn in Hrun; try discriminate Hrun.
      destruct (expandLoop m rest mid) as [r t3] eqn:Hrec.
      injection Hrun as -> _.
      apply expandPreds_origin in Hpreds as (s1 & -> & Hall1).
      apply IH in Hrec as (s2 & -> & Hall2).
      exists (s1 ++ s2). split; [by rewrite app_assoc |].
      apply Forall_app. split; [| by apply Hweaken].
      eapply Forall_impl; [exact Hall1 |]. intros e Hor.
      exists edge. split; [apply list_elem_of_here | exact Hor].
Qed.

Lemma expandEdges_reads_only_aux m :
  Forall (fun c => isReadAt (StartTs m) c = true) (snd (expandEdges m)).
Proof. apply expandLoop_trace. Qed.

(** X1: every call expandEdges makes is a read of storage at the read
    timestamp of the mutation. It never reaches the lease authority or the
    commit protocol, whatever the outcome. *)
Theorem expandEdges_reads_only m :
  Forall (fun c => isReadAt (StartTs m) c = true) (snd (expandEdges m)).
Proof. apply expandLoop_trace. Qed.

(** X2: when every edge carries a declared operation kind (SET or DEL), the
    assertion of expandEdges holds throughout and the function returns,
    with edges or with an error. *)
Theorem expandEdges_returns m :
  (forall edge, edge ∈ Edges m -> declaredOp edge) ->
  exists r, outcome (expandEdges m) = Done r.
Proof. intros Hops. by apply expandLoop_returns. Qed.

(** X3: an edge with an undeclared operation kind stops the request at the
    assertion once the edges in front of it have been expanded, whatever
    follows it. *)
Theorem expandEdges_undeclared_op m pre edge post mid t1 :
  Edges m = pre ++ edge :: post ->
  expandEdges {| Edges := pre; StartTs := StartTs m |} = (Done (inl mid), t1) ->
  ~ declaredOp edge ->
  expandEdges m = (Fatal "assertion failed", t1).
Proof.
  intros Hedges Hpre Hop. unfold expandEdges in *. simpl in Hpre.
  rewrite (expandLoop_ts _ m) in Hpre by reflexivity.
  rewrite Hedges, (expandLoop_app _ _ _ _ _ _ Hpre). cbn [expandLoop].
  rewrite !bool_decide_eq_false_2 by (intros Heq; apply Hop; by constructor).
  cbn. by rewrite app_nil_r.
Qed.

(** X4: a mutation made of pass-through edges only (DEL, entity 0, value
    the wildcard marker) comes back unchanged, and nothing is read, even
    where the predicate is the wildcard marker too. *)
Theorem expandEdges_pass_through m :
  (forall edge, edge ∈ Edges m -> isPassThrough edge = true) ->
  expandEdges m = (Done (inl (Edges m)), []).
Proof.
  intros Hall. unfold expandEdges.
  change (Edges m) with ([] ++ Edges m) at 2.
  generalize (@nil DirectedEdge) as acc.
  induction (Edges m) as [|edge rest IH]; intros acc.
  - simpl. by rewrite app_nil_r.
  - pose proof (Hall edge (list_elem_of_here _ _)) as Hpass.
    cbn [expandLoop]. fold (isPassThrough edge). rewrite Hpass.
    unfold isPassThrough in Hpass.
    apply andb_prop in Hpass as [Hpass _]. apply andb_prop in Hpass as [Hop _].
    rewrite Hop. cbn [orb negb].
    rewrite IH by (intros e He; by apply Hall, list_elem_of_further).
    by rewrite <- app_assoc.
Qed.

(** X5: for edges whose predicate and value are both explicit, expandEdges
    reads nothing and returns, edge by edge and in order: the edge itself,
    its bookkeeping edge, and when the predicate is reverse-indexed the
    reverse-bookkeeping edge of the edge's own target. *)
Theorem expandEdges_concrete m :
  (forall edge, edge ∈ Edges m ->
     declaredOp edge /\ Attr edge <> Star /\ Value edge <> Star) ->
  expandEdges m = (Done (inl (Edges m ≫= concreteExpansion)), []).
Proof.
  intros Hall. unfold expandEdges.
  change (Edges m ≫= concreteExpansion)
    with ([] ++ (Edges m ≫= concreteExpansion)).
  generalize (@nil DirectedEdge) as acc.
  induction (Edges m) as [|edge rest IH]; intros acc.
  - simpl. by rewrite app_nil_r.
  - destruct (Hall edge (list_elem_of_here _ _)) as (Hop & Hattr & Hval).
    rewrite bind_cons.
    specialize (IH (fun e He => Hall e (list_elem_of_further _ _ _ He))).
    set (tail := rest ≫= concreteExpansion) in *.
    cbn [expandLoop].
    assert (Hassert : bool_decide (Op edge = DirectedEdge_DEL)
                      || bool_decide (Op edge = DirectedEdge_SET) = true).
    { destruct Hop as [-> | ->]; [by rewrite bool_decide_eq_true_2 |].
      rewrite (bool_decide_eq_true_2 (DirectedEdge_SET = DirectedEdge_SET)) by done.
      apply orb_true_r. }
    rewrite Hassert. cbn [negb].
    rewrite (bool_decide_eq_false_2 (Value edge = Star)) by done.
    rewrite andb_false_r. unfold resolvePreds.
    rewrite bool_decide_eq_true_2 by done. cbn [mbind Eff_bind mret Eff_ret].
    cbn [expandPreds].
    rewrite (bool_decide_eq_true_2 (Value edge <> Star)) by done.
    rewrite appendReverse_app.
    assert (Hself : narrowTo edge (Attr edge) = edge) by (by destruct edge).
    rewrite Hself. unfold concreteExpansion, predicateEdge.
    destruct (IsReversed (Attr edge)); cbn [negb mbind Eff_bind mret Eff_ret];
      rewrite IH; unfold reverseEdges, predicateEdge;
      cbn [app fmap list_fmap]; by rewrite <- !app_assoc.
Qed.

(** X6: expansion goes edge by edge. Once a first list of edges expands
    to [o1], expanding it followed by a second list gives [o1] followed by
    the expansion of the second list, the reads of the first followed by
    those of the second; an error or failed assertion in the second list is
    the result of the whole. *)
Theorem expandEdges_app ts pre post o1 t1 :
  expandEdges {| Edges := pre; StartTs := ts |} = (Done (inl o1), t1) ->
  expandEdges {| Edges := pre ++ post; StartTs := ts |}
  = thenExpand o1 t1 (expandEdges {| Edges := post; StartTs := ts |}).
Proof.
  unfold expandEdges. cbn [Edges]. intros Hpre.
  rewrite (expandLoop_ts _ {| Edges := pre ++ post; StartTs := ts |}) in Hpre
    by reflexivity.
  rewrite (expandLoop_app _ _ _ _ _ _ Hpre).
  rewrite (expandLoop_ts {| Edges := post; StartTs := ts |}
             {| Edges := pre ++ post; StartTs := ts |}) by reflexivity.
  assert (Hacc : forall m0, expandLoop m0 post o1
                             = thenExpand o1 [] (expandLoop m0 post [])).
  { intros m0. rewrite <- expandLoop_acc. by rewrite app_nil_r. }
  rewrite Hacc. unfold thenExpand. reflexivity.
Qed.

(** X7: when the read of the predicate set of a wildcard-predicate edge
    fails, or answers with no list or with several, expansion stops there:
    the result is the read error as it came, or the value-matrix error
    naming the entity; no edge is returned, and that read is the last
    call. *)
Theorem expandEdges_predicate_set_unusable m pre edge post mid t1 r :
  Edges m = pre ++ edge :: post ->
  expandEdges {| Edges := pre; StartTs := StartTs m |} = (Done (inl mid), t1) ->
  declaredOp edge ->
  isPassThrough edge = false ->
  Attr edge = Star ->
  getNodePredicates (Entity edge) (StartTs m) = r ->
  (forall vl, r <> inl [vl]) ->
  expandEdges m
  = (Done (inr (match r with
                | inr err => err
                | inl _ => ErrValueMatrix (Entity edge)
                end)),
     t1 ++ [Call_getNodePredicates (Entity edge) (StartTs m)]).
Proof.
  intros Hedges Hpre Hop Hpass Hattr Hget Hbad.
  unfold expandEdges in *. simpl in Hpre.
  rewrite (expandLoop_ts _ m) in Hpre by reflexivity.
  rewrite Hedges, (expandLoop_app _ _ _ _ _ _ Hpre). cbn [expandLoop].
  fold (isPassThrough edge). rewrite Hpass.
  assert (Hassert : bool_decide (Op edge = DirectedEdge_DEL)
                    || bool_decide (Op edge = DirectedEdge_SET) = true).
  { destruct Hop as [-> | ->]; [by rewrite bool_decide_eq_true_2 |].
    rewrite (bool_decide_eq_true_2 (DirectedEdge_SET = DirectedEdge_SET)) by done.
    apply orb_true_r. }
  rewrite Hassert. cbn [negb]. unfold resolvePreds.
  rewrite bool_decide_eq_false_2 by (intros Hne; by apply Hne).
  rewrite Hget. cbn.
  destruct r as [[|vl [|vl' vm]]|err]; cbn; try reflexivity.
  by destruct (Hbad vl).
Qed.

(** X8: expansion invents nothing. Every edge it returns stems from an
    input edge and carries that edge's operation kind: it is the input edge
    itself, a copy of it under another predicate, or a bookkeeping edge on
    the reserved attribute. *)
Theorem expandEdges_output_origin m out e :
  outcome (expandEdges m) = Done (inl out) ->
  e ∈ out ->
  exists edge, edge ∈ Edges m /\ originOf edge e.
Proof.
  unfold outcome, expandEdges. intros Hrun He.
  destruct (expandLoop m (Edges m) []) as [r t] eqn:Hloop. simpl in Hrun. subst r.
  apply expandLoop_origin in Hloop as (suffix & -> & Hall).
  simpl in He. by apply (proj1 (Forall_forall _ _) Hall).
Qed.

(** X9: of the names storage lists for an entity, the predicate loop keeps
    the non-empty ones, each once per listing and in the listed order. *)
Theorem livePreds_filter values preds :
  livePreds values preds
  = preds ++ filter (fun name => name <> "") (Val <$> values).
Proof.
  revert preds. induction values as [|[name] rest IH]; intros preds.
  - simpl. by rewrite app_nil_r.
  - rewrite fmap_cons. cbn [Val]. destruct name as [|a name'].
    + rewrite filter_cons_False by (intros Hne; by apply Hne).
      cbn [livePreds Val String.length Nat.ltb Nat.leb]. apply IH.
    + rewrite filter_cons_True by done.
      cbn [livePreds Val String.length Nat.ltb Nat.leb].
      rewrite IH. by rewrite <- app_assoc.
Qed.

End ExpandMore.

(** ** ApplyMutations: the commit call *)

Section ApplyMutationsMore.

Context `{Env}.

Lemma rejectStar_none (edges : list DirectedEdge) :
  (forall mu, mu ∈ edges -> Attr mu <> Star) -> rejectStar edges = None.
Proof.
  induction edges as [|mu rest IH]; intros Hall; [reflexivity |]. simpl.
  rewrite bool_decide_eq_false_2 by apply Hall, list_elem_of_here.
  apply IH. intros e He. by apply Hall, list_elem_of_further.
Qed.

Lemma rejectStar_error (edges : list DirectedEdge) err :
  rejectStar edges = Some err -> err = ErrExpandEdgeDisabled.
Proof.
  induction edges as [|mu rest IH]; [discriminate |]. simpl.
  destruct (_ && _); [by intros [= <-] | exact IH].
Qed.

(** X10: with expansion disabled and no wildcard predicate in the
    mutation, ApplyMutations hands the mutation to the commit protocol as
    it is (no bookkeeping edge is added), makes no other call, and returns
    the answer of the commit protocol unchanged, error included. *)
Theorem ApplyMutations_disabled_forwards (m : Mutations) :
  Config_ExpandEdge = false ->
  (forall mu, mu ∈ Edges m -> Attr mu <> Star) ->
  ApplyMutations m = (Done (MutateOverNetwork m), [Call_MutateOverNetwork m]).
Proof.
  intros Hoff Hall. unfold ApplyMutations. rewrite Hoff.
  rewrite (rejectStar_none _ Hall). cbn.
  by destruct (MutateOverNetwork m).
Qed.

(** X11: in every run of ApplyMutations the calls in front of the commit
    call are reads of storage at the read timestamp of the mutation. The
    commit call is made at most once and is then the last call, for a
    mutation with the same read timestamp, and its answer is the result.
    Without a commit call the request ends in an error without transaction
    context or in a failed assertion. *)
Theorem ApplyMutations_commit_last (m : Mutations) :
  exists reads,
    Forall (fun c => isReadAt (StartTs m) c = true) reads /\
    ((exists m',
        StartTs m' = StartTs m /\
        ApplyMutations m
        = (Done (MutateOverNetwork m'), reads ++ [Call_MutateOverNetwork m'])) \/
     (snd (ApplyMutations m) = reads /\
      ((exists err, fst (ApplyMutations m) = Done (None, Some err)) \/
       (exists msg, fst (ApplyMutations m) = Fatal msg)))).
Proof.
  unfold ApplyMutations. destruct Config_ExpandEdge.
  - pose proof (expandEdges_reads_only_aux m) as Hreads.
    destruct (expandEdges m) as [[[edges|err]|msg] t]; cbn in *.
    + exists t. split; [exact Hreads |]. left.
      exists {| Edges := edges; StartTs := StartTs m |}. split; [reflexivity |].
      by destruct (MutateOverNetwork _).
    + exists t. split; [exact Hreads |]. right.
      split; [by rewrite app_nil_r |]. left. by eexists.
    + exists t. split; [exact Hreads |]. right. split; [done |]. right. by eexists.
  - exists []. split; [constructor |].
    destruct (rejectStar (Edges m)) as [err|] eqn:Hrej; cbn.
    + right. split; [done |]. left. by eexists.
    + left. exists m. split; [reflexivity |]. by destruct (MutateOverNetwork m).
Qed.

End ApplyMutationsMore.

(** ** AssignUids: labels, requests and failures *)

Section AssignUidsMore.

Context `{Env}.

(* set_solver clears hypotheses it has already consumed *)
#[local] Set Warnings "-clear-no-such-hyp".

Lemma verifyUid_zero : verifyUid 0 = None.
Proof.
  unfold verifyUid. pose proof (wrap64_range (MaxLeaseId + 10000)) as [Hlo _].
  destruct (Z.gtb_spec 0 (wrap64 (MaxLeaseId + 10000))); [lia | reflexivity].
Qed.

Lemma scanRef_blank ref newUids :
  isBlank ref = true -> scanRef ref newUids = (<[ref := 0]> newUids, None).
Proof.
  unfold isBlank, scanRef. intros Hb. rewrite Hb, verifyUid_zero.
  destruct ref; [discriminate Hb | reflexivity].
Qed.

Lemma scanRef_dom ref newUids :
  dom (fst (scanRef ref newUids)) = dom newUids ∪ blankRef ref.
Proof.
  unfold blankRef. destruct (isBlank ref) eqn:Hb.
  - rewrite scanRef_blank by exact Hb. simpl. rewrite dom_insert_L. set_solver.
  - rewrite scanRef_not_blank by exact Hb. set_solver.
Qed.

Lemma scanRef_zero ref (newUids : gmap string Z) :
  (forall k v, newUids !! k = Some v -> v = 0) ->
  forall k v, fst (scanRef ref newUids) !! k = Some v -> v = 0.
Proof.
  intros Hzero k v. destruct (isBlank ref) eqn:Hb.
  - rewrite scanRef_blank by exact Hb. simpl.
    destruct (decide (ref = k)) as [-> | Hne].
    + rewrite lookup_insert_eq. by intros [= <-].
    + rewrite lookup_insert_ne by exact Hne. apply Hzero.
  - rewrite scanRef_not_blank by exact Hb. apply Hzero.
Qed.

Lemma scanNQuads_cons nq rest newUids :
  scanNQuads (nq :: rest) newUids
  = if isPredicateDeletion nq then scanNQuads rest newUids
    else match snd (scanRef (Subject nq) newUids) with
         | Some err => (fst (scanRef (Subject nq) newUids), Some err)
         | None =>
             match snd (scanRef (ObjectId nq) (fst (scanRef (Subject nq) newUids))) with
             | Some err =>
                 (fst (scanRef (ObjectId nq) (fst (scanRef (Subject nq) newUids))),
                  Some err)
             | None =>
                 scanNQuads rest
                   (fst (scanRef (ObjectId nq) (fst (scanRef (Subject nq) newUids))))
             end
         end.
Proof.
  cbn [scanNQuads]. unfold isPredicateDeletion. destruct (_ && _); [reflexivity |].
  destruct (scanRef (Subject nq) newUids) as [m1 [e1|]]; [reflexivity |]. simpl.
  by destruct (scanRef (ObjectId nq) m1) as [m2 [e2|]].
Qed.

Lemma scanNQuads_dom nquads newUids :
  dom (fst (scanNQuads nquads newUids)) ⊆ dom newUids ∪ labelsOf nquads /\
  (snd (scanNQuads nquads newUids) = None ->
   dom (fst (scanNQuads nquads newUids)) = dom newUids ∪ labelsOf nquads).
Proof.
  revert newUids. induction nquads as [|nq rest IH]; intros newUids.
  - simpl. split; [by rewrite union_empty_r_L | intros _; by rewrite union_empty_r_L].
  - rewrite scanNQuads_cons. cbn [labelsOf].
    destruct (IH newUids) as [Hsub0 Heq0].
    destruct (IH (fst (scanRef (ObjectId nq) (fst (scanRef (Subject nq) newUids)))))
      as [Hsub Heq].
    pose proof (scanRef_dom (Subject nq) newUids) as Hs.
    pose proof (scanRef_dom (ObjectId nq) (fst (scanRef (Subject nq) newUids))) as Ho.
    clear IH. rewrite Ho, Hs in Hsub, Heq. rewrite Hs in Ho.
    set (S := blankRef (Subject nq)) in *. clearbody S.
    set (O := blankRef (ObjectId nq)) in *. clearbody O.
    set (L := labelsOf rest) in *. clearbody L.
    set (A := dom newUids) in *. clearbody A.
    destruct (isPredicateDeletion nq).
    { set (D := dom (fst (scanNQuads rest newUids))) in *. clearbody D.
      clear Hsub Heq Hs Ho.
      split; [set_solver |]. intros Hnone. rewrite (Heq0 Hnone). set_solver. }
    clear Hsub0 Heq0.
    destruct (snd (scanRef (Subject nq) newUids)) eqn:Hes.
    { cbn [fst snd]. rewrite Hs. clear. split; [set_solver | discriminate]. }
    destruct (snd (scanRef (ObjectId nq) _)) eqn:Heo.
    { cbn [fst snd]. rewrite Ho. clear. split; [set_solver | discriminate]. }
    set (D := dom (fst (scanNQuads rest _))) in *. clearbody D.
    clear Hs Ho Hes Heo.
    split; [set_solver |]. intros Hnone. rewrite (Heq Hnone). clear. set_solver.
Qed.

Lemma scanNQuads_zero nquads (newUids : gmap string Z) :
  (forall k v, newUids !! k = Some v -> v = 0) ->
  forall k v, fst (scanNQuads nquads newUids) !! k = Some v -> v = 0.
Proof.
  revert newUids. induction nquads as [|nq rest IH]; intros newUids Hzero.
  - exact Hzero.
  - rewrite scanNQuads_cons.
    pose proof (scanRef_zero (Subject nq) newUids Hzero) as Hs.
    pose proof (scanRef_zero (ObjectId nq) _ Hs) as Ho.
    destruct (isPredicateDeletion nq); [by apply IH |].
    destruct (snd (scanRef (Subject nq) newUids)); [exact Hs |].
    destruct (snd (scanRef (ObjectId nq) _)); [exact Ho |].
    by apply IH.
Qed.

Lemma scanNQuads_app pre post newUids :
  scanNQuads (pre ++ post) newUids
  = match snd (scanNQuads pre newUids) with
    | Some err => (fst (scanNQuads pre newUids), Some err)
    | None => scanNQuads post (fst (scanNQuads pre newUids))
    end.
Proof.
  revert newUids. induction pre as [|nq rest IH]; intros newUids.
  - reflexivity.
  - rewrite <- app_comm_cons, !scanNQuads_cons.
    destruct (isPredicateDeletion nq); [apply IH |].
    destruct (snd (scanRef (Subject nq) newUids)) eqn:Hes; [reflexivity |].
    destruct (snd (scanRef (ObjectId nq) _)) eqn:Heo; [reflexivity |].
    apply IH.
Qed.

Lemma assignGenerated_trace keys curId endId (newUids : gmap string Z) :
  snd (assignGenerated keys curId endId newUids) = [].
Proof.
  revert curId newUids. induction keys as [|k rest IH]; intros curId newUids.
  - reflexivity.
  - cbn [assignGenerated]. destruct (_ && _); [apply IH | reflexivity].
Qed.

Lemma assignGenerated_dom keys curId endId (newUids assigned : gmap string Z) :
  fst (assignGenerated keys curId endId newUids) = Done assigned ->
  dom assigned = dom newUids ∪ list_to_set keys.
Proof.
  revert curId newUids. induction keys as [|k rest IH]; intros curId newUids Hrun.
  - simpl in Hrun. injection Hrun as <-. set_solver.
  - cbn [assignGenerated] in Hrun. destruct (_ && _); [| discriminate Hrun].
    apply IH in Hrun. rewrite Hrun, dom_insert_L. set_solver.
Qed.

Lemma scanNQuads_labels nquads newUids :
  scanNQuads nquads ∅ = (newUids, None) ->
  dom newUids = labelsOf nquads /\ size newUids = size (labelsOf nquads).
Proof.
  intros Hscan. destruct (scanNQuads_dom nquads ∅) as [_ Heq].
  rewrite Hscan in Heq. simpl in Heq. specialize (Heq eq_refl).
  rewrite dom_empty_L, union_empty_l_L in Heq. split; [exact Heq |].
  by rewrite <- Heq, size_dom.
Qed.

Lemma scanNQuads_blank_only nquads newUids :
  (forall nq, nq ∈ nquads ->
     (Subject nq = "" \/ isBlank (Subject nq) = true) /\
     (ObjectId nq = "" \/ isBlank (ObjectId nq) = true)) ->
  snd (scanNQuads nquads newUids) = None.
Proof.
  assert (Href : forall ref m, ref = "" \/ isBlank ref = true ->
                   snd (scanRef ref m) = None).
  { intros ref m [-> | Hb]; [reflexivity | by rewrite scanRef_blank]. }
  revert newUids. induction nquads as [|nq rest IH]; intros newUids Hall.
  - reflexivity.
  - destruct (Hall nq (list_elem_of_here _ _)) as [Hs Ho].
    assert (Hrest : forall m, snd (scanNQuads rest m) = None).
    { intros m. apply IH. intros q Hq. by apply Hall, list_elem_of_further. }
    rewrite scanNQuads_cons. destruct (isPredicateDeletion nq); [apply Hrest |].
    rewrite (Href _ _ Hs), (Href _ _ Ho). apply Hrest.
Qed.

(** X12: a statement list whose references are all blank-node labels (or
    empty) passes validation whatever the lease ceiling is: the only error
    AssignUids can return for it is the one of the lease authority,
    answering the request for as many identifiers as there are labels. *)
Theorem AssignUids_blank_only nquads (m : gmap string Z) err :
  (forall nq, nq ∈ nquads ->
     (Subject nq = "" \/ isBlank (Subject nq) = true) /\
     (ObjectId nq = "" \/ isBlank (ObjectId nq) = true)) ->
  outcome (AssignUids nquads) = Done (m, Some err) ->
  AssignUidsOverNetwork (Z.of_nat (size (labelsOf nquads))) = inr err.
Proof.
  intros Hall. pose proof (scanNQuads_blank_only nquads ∅ Hall) as Hnone.
  unfold outcome, AssignUids.
  destruct (scanNQuads nquads ∅) as [newUids e] eqn:Hscan. simpl in Hnone. subst e.
  destruct (scanNQuads_labels _ _ Hscan) as [_ <-].
  destruct (Z.of_nat (size newUids) >? 0); [| discriminate]. cbn.
  destruct (AssignUidsOverNetwork (Z.of_nat (size newUids))) as [res|e]; cbn.
  - destruct (assignGenerated _ _ _ _) as [[assigned|msg] t]; discriminate.
  - by intros [= _ ->].
Qed.

(** X13: raising the lease ceiling never turns an accepted identifier into
    a refused one, as long as the higher ceiling plus the margin still fits
    in 64 bits. *)
Theorem verifyUid_monotone (E1 E2 : Env) (uid : Z) :
  is_uint64 (@MaxLeaseId E1) ->
  @MaxLeaseId E1 <= @MaxLeaseId E2 ->
  @MaxLeaseId E2 + 10000 < uint64_modulus ->
  @verifyUid E1 uid = None ->
  @verifyUid E2 uid = None.
Proof.
  unfold verifyUid, is_uint64. intros Hc Hle Hfit.
  rewrite !wrap64_small by (unfold is_uint64; lia).
  destruct (Z.gtb_spec uid (@MaxLeaseId E1 + 10000)); [discriminate |].
  destruct (Z.gtb_spec uid (@MaxLeaseId E2 + 10000)); [lia | reflexivity].
Qed.

(** X14: when AssignUids returns without error, the keys of its map are
    exactly the blank-node labels of the statements it does not skip: every
    label has an entry, however often it occurs, and nothing else has. *)
Theorem AssignUids_labels nquads (assigned : gmap string Z) :
  range_visits_each_key_once ->
  outcome (AssignUids nquads) = Done (assigned, None) ->
  dom assigned = labelsOf nquads.
Proof.
  intros Horder. unfold outcome, AssignUids.
  destruct (scanNQuads nquads ∅) as [newUids [e|]] eqn:Hscan; [discriminate |].
  destruct (scanNQuads_labels _ _ Hscan) as [Hdom _].
  destruct (Z.of_nat (size newUids) >? 0); [| by intros [= <-]]. cbn.
  destruct (AssignUidsOverNetwork _) as [res|e]; [| discriminate]. cbn.
  destruct (assignGenerated _ _ _ _) as [[m|msg] t] eqn:Hgen; [| discriminate].
  cbn. intros [= <-].
  pose proof (assignGenerated_dom _ _ _ _ m (f_equal fst Hgen)) as Hm.
  rewrite Hm, <- Hdom. apply set_eq. intros k.
  rewrite elem_of_union, elem_of_list_to_set, (Horder newUids), elem_of_dom.
  split; [| by left]. intros [Hk | Hk]; [exact Hk |].
  apply list_elem_of_fmap in Hk as ([k' v] & -> & Hkv).
  apply elem_of_map_to_list in Hkv. by exists v.
Qed.

Lemma scanNQuads_accepted nquads newUids :
  (forall nq, nq ∈ nquads -> statementAccepted nq) ->
  snd (scanNQuads nquads newUids) = None.
Proof.
  assert (Href : forall ref m, refAccepted ref -> snd (scanRef ref m) = None).
  { intros ref m [Hb | Hv]; [by rewrite scanRef_blank |].
    destruct (isBlank ref) eqn:Hb; [by rewrite scanRef_blank |].
    by apply scanRef_valid. }
  revert newUids. induction nquads as [|nq rest IH]; intros newUids Hall.
  - reflexivity.
  - assert (Hrest : forall m, snd (scanNQuads rest m) = None).
    { intros m. apply IH. intros q Hq. by apply Hall, list_elem_of_further. }
    rewrite scanNQuads_cons.
    destruct (Hall nq (list_elem_of_here _ _)) as [Hskip | [Hs Ho]].
    + rewrite Hskip. apply Hrest.
    + destruct (isPredicateDeletion nq); [apply Hrest |].
      rewrite (Href _ _ Hs), (Href _ _ Ho). apply Hrest.
Qed.

(** X15: AssignUids makes at most one call, and a call it makes is the
    request to the lease authority for as many identifiers as the statement
    list has distinct blank-node labels. When every statement is skipped or
    has accepted references only, it makes exactly that request if there is
    a label, and if there is none it makes no call and returns the empty map
    without error. When validation fails, it returns the validation error
    and the labels met so far, without a call. *)
Theorem AssignUids_single_request nquads :
  (snd (AssignUids nquads) = [] \/
   (labelsOf nquads <> ∅ /\
    snd (AssignUids nquads)
    = [Call_AssignUidsOverNetwork (Z.of_nat (size (labelsOf nquads)))])) /\
  ((forall nq, nq ∈ nquads -> statementAccepted nq) ->
   (labelsOf nquads <> ∅ ->
    snd (AssignUids nquads)
    = [Call_AssignUidsOverNetwork (Z.of_nat (size (labelsOf nquads)))]) /\
   (labelsOf nquads = ∅ -> AssignUids nquads = (Done (∅, None), []))) /\
  (forall err,
     snd (scanNQuads nquads ∅) = Some err ->
     AssignUids nquads = (Done (fst (scanNQuads nquads ∅), Some err), [])).
Proof.
  assert (Hpass : forall newUids,
            scanNQuads nquads ∅ = (newUids, None) ->
            (labelsOf nquads <> ∅ ->
             snd (AssignUids nquads)
             = [Call_AssignUidsOverNetwork (Z.of_nat (size (labelsOf nquads)))]) /\
            (labelsOf nquads = ∅ -> AssignUids nquads = (Done (∅, None), []))).
  { intros newUids Hscan. unfold AssignUids. rewrite Hscan.
    destruct (scanNQuads_labels _ _ Hscan) as [Hdom Hsize]. rewrite Hsize. split.
    - intros Hsome.
      destruct (Z.gtb_spec (Z.of_nat (size (labelsOf nquads))) 0) as [_ | Hnone].
      + cbn. destruct (AssignUidsOverNetwork _) as [res|e]; [| reflexivity]. cbn.
        pose proof (assignGenerated_trace (rangeKeys newUids) (StartId res)
                      (EndId res) newUids) as Htrace.
        destruct (assignGenerated _ _ _ _) as [[m|msg] t]; simpl in Htrace;
          by subst t.
      + exfalso. apply Hsome, leibniz_equiv, size_empty_iff. lia.
    - intros Hempty. rewrite Hempty, size_empty. cbn.
      rewrite Hempty in Hdom. apply dom_empty_inv_L in Hdom. by subst newUids. }
  split; [| split].
  - destruct (scanNQuads nquads ∅) as [newUids [e|]] eqn:Hscan.
    + left. unfold AssignUids. by rewrite Hscan.
    + destruct (Hpass newUids eq_refl) as [Hsome Hnone].
      destruct (decide (labelsOf nquads = ∅)) as [Hempty | Hlabels].
      * left. by rewrite (Hnone Hempty).
      * right. split; [exact Hlabels | by apply Hsome].
  - intros Hall. pose proof (scanNQuads_accepted nquads ∅ Hall) as Hok.
    destruct (scanNQuads nquads ∅) as [newUids e] eqn:Hscan. simpl in Hok. subst e.
    by apply (Hpass newUids).
  - intros err Herr. unfold AssignUids.
    destruct (scanNQuads nquads ∅) as [newUids e]. simpl in *. by subst e.
Qed.

(** X16: whenever AssignUids returns an error, the map beside it holds
    only labels of the statement list, and each of them still carries the
    placeholder 0: no identifier has been handed out. *)
Theorem AssignUids_error_keeps_placeholders nquads (m : gmap string Z) err :
  outcome (AssignUids nquads) = Done (m, Some err) ->
  dom m ⊆ labelsOf nquads /\
  (forall k v, m !! k = Some v -> v = 0).
Proof.
  unfold outcome, AssignUids. intros Hrun.
  destruct (scanNQuads_dom nquads ∅) as [Hsub _].
  rewrite dom_empty_L, union_empty_l_L in Hsub.
  pose proof (scanNQuads_zero nquads ∅) as Hzero.
  assert (Hscan : m = fst (scanNQuads nquads ∅)).
  { destruct (scanNQuads nquads ∅) as [newUids [e|]]; [by injection Hrun as <- _ |].
    destruct (Z.of_nat (size newUids) >? 0); [| discriminate Hrun]. cbn in Hrun.
    destruct (AssignUidsOverNetwork _) as [res|e]; cbn in Hrun.
    - destruct (assignGenerated _ _ _ _) as [[m'|msg] t]; discriminate Hrun.
    - by injection Hrun as <- _. }
  subst m. split; [exact Hsub |]. apply Hzero. intros k v Hk.
  by rewrite lookup_empty in Hk.
Qed.

Lemma assignGenerated_short keys curId endId (newUids : gmap string Z) :
  keys <> [] ->
  0 <= curId ->
  endId < uint64_modulus ->
  curId = 0 \/ Z.of_nat (length keys) > Z.max 0 (endId - curId + 1) ->
  assignGenerated keys curId endId newUids
  = (Fatal "not enough uids generated", []).
Proof.
  intros Hne Hpos Hend. revert curId newUids Hne Hpos.
  induction keys as [|k rest IH]; intros curId newUids Hne Hpos Hshort; [done |].
  cbn [assignGenerated].
  destruct (decide (curId = 0)) as [-> | Hnz]; [reflexivity |].
  rewrite bool_decide_eq_true_2 by exact Hnz.
  destruct (Z.leb_spec curId endId) as [Hle | Hgt]; [| reflexivity]. cbn [andb].
  destruct Hshort as [-> | Hshort]; [done |]. cbn [length] in Hshort.
  pose proof (wrap64_range (curId + 1)) as [Hlo _].
  apply IH; [| exact Hlo |].
  - destruct rest; [simpl in Hshort; lia | done].
  - destruct (decide (curId + 1 = uint64_modulus)) as [Hwrap | Hfit].
    + left. unfold wrap64. rewrite Hwrap. apply Z_mod_same_full.
    + right. rewrite wrap64_small by (unfold is_uint64; lia). lia.
Qed.

(** X17: when the range the lease authority grants starts at 0, or holds
    fewer identifiers than there are labels, the assertion in the
    assignment loop fails and the request does not return. *)
Theorem AssignUids_range_too_small nquads (newUids : gmap string Z) res :
  range_visits_each_key_once ->
  scanNQuads nquads ∅ = (newUids, None) ->
  (0 < size newUids)%nat ->
  AssignUidsOverNetwork (Z.of_nat (size newUids)) = inl res ->
  0 <= StartId res ->
  EndId res < uint64_modulus ->
  StartId res = 0 \/ Z.of_nat (size newUids) > Z.max 0 (EndId res - StartId res + 1) ->
  outcome (AssignUids nquads) = Fatal "not enough uids generated".
Proof.
  intros Horder Hscan Hsome Hgrant Hstart Hend Hshort.
  assert (Hlen : length (rangeKeys newUids) = size newUids).
  { rewrite (Horder newUids), length_fmap. apply length_map_to_list. }
  unfold outcome, AssignUids. rewrite Hscan.
  destruct (Z.gtb_spec (Z.of_nat (size newUids)) 0) as [_ | Hnone]; [| lia].
  cbn. rewrite Hgrant. cbn.
  rewrite assignGenerated_short; [reflexivity | | exact Hstart | exact Hend |].
  - intros Hnil. rewrite Hnil in Hlen. simpl in Hlen. lia.
  - by rewrite Hlen.
Qed.

(** X18: a statement with wildcard subject and default-value wildcard
    object is invisible to AssignUids: with or without it, wherever it
    stands and whatever its object reference is, the result and the calls
    are the same. *)
Theorem AssignUids_skips_predicate_deletion pre nq post :
  isPredicateDeletion nq = true ->
  AssignUids (pre ++ nq :: post) = AssignUids (pre ++ post).
Proof.
  intros Hshape. unfold AssignUids.
  rewrite !scanNQuads_app, scanNQuads_cons, Hshape. reflexivity.
Qed.

(** X19: a subject given as an identifier above the lease ceiling plus the
    margin makes AssignUids return the out-of-range error at once: nothing
    is requested from the lease authority, the statements behind it are not
    looked at, and the map holds the labels met so far. *)
Theorem AssignUids_rejects_above_lease pre nq post (m : gmap string Z) uid :
  scanNQuads pre ∅ = (m, None) ->
  isPredicateDeletion nq = false ->
  Subject nq <> "" ->
  isBlank (Subject nq) = false ->
  ParseUid (Subject nq) = (uid, None) ->
  is_uint64 MaxLeaseId ->
  MaxLeaseId + 10000 < uint64_modulus ->
  uid > MaxLeaseId + 10000 ->
  AssignUids (pre ++ nq :: post)
  = (Done (m, Some (ErrUidAboveLease uid MaxLeaseId)), []).
Proof.
  intros Hpre Hshape Hsubj Hblank Hparse Hc Hfit Hgt.
  assert (Href : scanRef (Subject nq) m = (m, Some (ErrUidAboveLease uid MaxLeaseId))).
  { unfold scanRef. unfold isBlank in Hblank. rewrite Hblank, Hparse.
    destruct (Subject nq); [done |]. cbn [String.length Nat.ltb Nat.leb].
    unfold verifyUid. rewrite wrap64_small by (unfold is_uint64 in *; lia).
    destruct (Z.gtb_spec uid (MaxLeaseId + 10000)); [reflexivity | lia]. }
  unfold AssignUids.
  rewrite scanNQuads_app, Hpre. cbn [fst snd].
  rewrite scanNQuads_cons, Hshape, Href. reflexivity.
Qed.

End AssignUidsMore.

(** ** ToInternal: partial results and errors *)

Section ToInternalMore.

Context `{Env}.

Lemma parse_shape newUids nq op edges :
  exists new,
    fst (parse newUids nq op edges) = edges ++ new /\
    (length new <= 1)%nat /\
    Forall (fun e => Op e = op) new.
Proof.
  unfold parse. destruct (String.length (Subject nq) =? 0)%nat.
  - exists []. rewrite app_nil_r. split; [done |]. split; [simpl; lia | constructor].
  - destruct (ToEdgeUsing nq newUids) as [edge|err].
    + exists [setOp edge op]. split; [done |]. split; [simpl; lia |].
      by repeat constructor.
    + exists []. rewrite app_nil_r. split; [done |]. split; [simpl; lia | constructor].
Qed.

Lemma translateSet_shape newUids set edges :
  exists new,
    fst (translateSet newUids set edges) = edges ++ new /\
    (length new <= length set)%nat /\
    Forall (fun e => Op e = DirectedEdge_SET) new.
Proof.
  revert edges. induction set as [|nq rest IH]; intros edges.
  - exists []. rewrite app_nil_r. split; [done |]. split; [simpl; lia | constructor].
  - cbn [translateSet].
    destruct (SortAndValidate (Facets nq)) as [fs [err|]].
    { exists []. rewrite app_nil_r. split; [done |]. split; [simpl; lia | constructor]. }
    destruct (parse_shape newUids (withFacets nq fs) DirectedEdge_SET edges)
      as (new1 & Heq1 & Hlen1 & Hop1).
    destruct (parse newUids (withFacets nq fs) DirectedEdge_SET edges)
      as [mid [err|]]; simpl in Heq1; subst mid.
    { exists new1. split; [done |]. split; [simpl; lia | exact Hop1]. }
    destruct (IH (edges ++ new1)) as (new2 & Heq2 & Hlen2 & Hop2).
    exists (new1 ++ new2). rewrite Heq2, app_assoc. split; [done |].
    split; [rewrite length_app; simpl; lia | by apply Forall_app].
Qed.

Lemma translateDel_shape newUids del edges :
  exists new,
    fst (translateDel newUids del edges) = edges ++ new /\
    (length new <= length del)%nat /\
    Forall (fun e => Op e = DirectedEdge_DEL) new.
Proof.
  revert edges. induction del as [|nq rest IH]; intros edges.
  - exists []. rewrite app_nil_r. split; [done |]. split; [simpl; lia | constructor].
  - cbn [translateDel]. destruct (isPredicateDeletion nq).
    { exists []. rewrite app_nil_r. split; [done |]. split; [simpl; lia | constructor]. }
    destruct (parse_shape newUids nq DirectedEdge_DEL edges)
      as (new1 & Heq1 & Hlen1 & Hop1).
    destruct (parse newUids nq DirectedEdge_DEL edges)
      as [mid [err|]]; simpl in Heq1; subst mid.
    { exists new1. split; [done |]. split; [simpl; lia | exact Hop1]. }
    destruct (IH (edges ++ new1)) as (new2 & Heq2 & Hlen2 & Hop2).
    exists (new1 ++ new2). rewrite Heq2, app_assoc. split; [done |].
    split; [rewrite length_app; simpl; lia | by apply Forall_app].
Qed.

Lemma ToInternal_shape gmu newUids :
  exists setEdges delEdges,
    fst (ToInternal gmu newUids) = setEdges ++ delEdges /\
    Forall (fun e => Op e = DirectedEdge_SET) setEdges /\
    Forall (fun e => Op e = DirectedEdge_DEL) delEdges /\
    (length setEdges <= length (Mutation_Set gmu))%nat /\
    (length delEdges <= length (Mutation_Del gmu))%nat.
Proof.
  unfold ToInternal.
  destruct (translateSet_shape newUids (Mutation_Set gmu) [])
    as (setEdges & Heq1 & Hlen1 & Hop1).
  destruct (translateSet newUids (Mutation_Set gmu) []) as [mid [err|]];
    simpl in Heq1; subst mid.
  - exists setEdges, []. rewrite app_nil_r.
    split; [done |]. split; [exact Hop1 |]. split; [constructor |].
    split; [exact Hlen1 | simpl; lia].
  - destruct (translateDel_shape newUids (Mutation_Del gmu) setEdges)
      as (delEdges & Heq2 & Hlen2 & Hop2).
    exists setEdges, delEdges. by repeat split.
Qed.

Lemma translateSet_app newUids pre post edges :
  translateSet newUids (pre ++ post) edges
  = match snd (translateSet newUids pre edges) with
    | Some err => (fst (translateSet newUids pre edges), Some err)
    | None => translateSet newUids post (fst (translateSet newUids pre edges))
    end.
Proof.
  revert edges. induction pre as [|nq rest IH]; intros edges.
  - reflexivity.
  - cbn [translateSet app].
    destruct (SortAndValidate (Facets nq)) as [fs [err|]]; [reflexivity |].
    destruct (parse newUids (withFacets nq fs) DirectedEdge_SET edges)
      as [mid [err|]]; [reflexivity | apply IH].
Qed.

Lemma translateDel_app newUids pre post edges :
  translateDel newUids (pre ++ post) edges
  = match snd (translateDel newUids pre edges) with
    | Some err => (fst (translateDel newUids pre edges), Some err)
    | None => translateDel newUids post (fst (translateDel newUids pre edges))
    end.
Proof.
  revert edges. induction pre as [|nq rest IH]; intros edges.
  - reflexivity.
  - cbn [translateDel app]. destruct (isPredicateDeletion nq); [reflexivity |].
    destruct (parse newUids nq DirectedEdge_DEL edges) as [mid [err|]];
      [reflexivity | apply IH].
Qed.

(** X20: whatever the outcome, error or not, the edges ToInternal returns
    are SET edges followed by DEL edges, at most one per statement of the
    respective list; the operation kind ToEdgeUsing left in an edge never
    survives. *)
Theorem ToInternal_output_shape gmu newUids :
  exists setEdges delEdges,
    fst (ToInternal gmu newUids) = setEdges ++ delEdges /\
    Forall (fun e => Op e = DirectedEdge_SET) setEdges /\
    Forall (fun e => Op e = DirectedEdge_DEL) delEdges /\
    (length setEdges <= length (Mutation_Set gmu))%nat /\
    (length delEdges <= length (Mutation_Del gmu))%nat.
Proof. apply ToInternal_shape. Qed.

(** X21: the edges ToInternal returns always pass the assertion of
    expandEdges: expanding them, at any read timestamp, returns. *)
Theorem expandEdges_after_ToInternal gmu newUids ts :
  exists r,
    outcome (expandEdges {| Edges := fst (ToInternal gmu newUids); StartTs := ts |})
    = Done r.
Proof.
  unfold outcome, expandEdges. apply expandLoop_returns. cbn [Edges].
  destruct (ToInternal_shape gmu newUids) as (s & d & -> & Hs & Hd & _).
  intros e He. apply elem_of_app in He as [He | He].
  - right. by apply (proj1 (Forall_forall _ _) Hs).
  - left. by apply (proj1 (Forall_forall _ _) Hd).
Qed.

(** X22: when a delete statement cannot be resolved into an edge, ToInternal
    returns that error wrapped, together with the edges of the statements
    in front of it; the statements behind it are not translated. *)
Theorem ToInternal_resolution_error set pre nq post newUids edges err :
  ToInternal {| Mutation_Set := set; Mutation_Del := pre |} newUids = (edges, None) ->
  isPredicateDeletion nq = false ->
  hasSubject nq ->
  ToEdgeUsing nq newUids = inr err ->
  ToInternal {| Mutation_Set := set; Mutation_Del := pre ++ nq :: post |} newUids
  = (edges, Some (ErrWrap err)).
Proof.
  unfold ToInternal. cbn [Mutation_Set Mutation_Del].
  intros Hpre Hshape Hsubj Hres.
  destruct (translateSet newUids set []) as [mid [e|]]; [discriminate Hpre |].
  rewrite translateDel_app, Hpre. cbn [fst snd translateDel].
  rewrite Hshape, parse_subject, Hres by exact Hsubj. reflexivity.
Qed.

(** X23: when the facets of a set statement fail validation, ToInternal
    returns that error as it is (not wrapped) with the edges of the set
    statements in front of it. The check comes before the test for an empty
    subject, so it also fails a statement that would have been skipped, and
    the delete list is not looked at. *)
Theorem ToInternal_facet_error pre nq post del newUids edges fs err :
  ToInternal {| Mutation_Set := pre; Mutation_Del := [] |} newUids = (edges, None) ->
  SortAndValidate (Facets nq) = (fs, Some err) ->
  ToInternal {| Mutation_Set := pre ++ nq :: post; Mutation_Del := del |} newUids
  = (edges, Some err).
Proof.
  unfold ToInternal. cbn [Mutation_Set Mutation_Del translateDel].
  intros Hpre Hfacets. rewrite translateSet_app.
  destruct (translateSet newUids pre []) as [mid [e|]]; [discriminate Hpre |].
  injection Hpre as ->. cbn [fst snd translateSet]. by rewrite Hfacets.
Qed.


End ToInternalMore.

(** ** Concrete requests for the further properties *)

Lemma expandEdges_returns_witness :
  exists r, outcome (@expandEdges (Sample.env true 100) Sample.deleteAll5) = Done r.
Proof.
  apply (@expandEdges_returns (Sample.env true 100) Sample.deleteAll5).
  intros edge Hin. apply elem_of_cons in Hin as [-> | Hin]; [by left | inversion Hin].
Defined.

Lemma expandEdges_undeclared_op_witness :
  @expandEdges (Sample.env true 100)
    {| Edges := [Sample.friendEdge DirectedEdge_SET;
                 Sample.friendEdge (DirectedEdge_Op_undeclared 7);
                 Sample.wildcardDelete 5];
       StartTs := 1 |}
  = (Fatal "assertion failed", []).
Proof.
  eapply (@expandEdges_undeclared_op (Sample.env true 100) _
            [Sample.friendEdge DirectedEdge_SET]
            (Sample.friendEdge (DirectedEdge_Op_undeclared 7))
            [Sample.wildcardDelete 5]).
  - reflexivity.
  - vm_compute. reflexivity.
  - intros [Hop | Hop]; discriminate Hop.
Defined.

Lemma expandEdges_pass_through_witness :
  @expandEdges (Sample.env true 100)
    {| Edges := [Sample.passThroughEdge; Sample.wildcardDelete 0]; StartTs := 1 |}
  = (Done (inl [Sample.passThroughEdge; Sample.wildcardDelete 0]), []).
Proof.
  apply (@expandEdges_pass_through (Sample.env true 100)
           {| Edges := [Sample.passThroughEdge; Sample.wildcardDelete 0];
              StartTs := 1 |}).
  intros edge Hin.
  apply elem_of_cons in Hin as [-> | Hin]; [reflexivity |].
  apply elem_of_cons in Hin as [-> | Hin]; [reflexivity | inversion Hin].
Defined.

Lemma expandEdges_concrete_witness :
  @expandEdges (Sample.env true 100)
    {| Edges := [Sample.edge DirectedEdge_SET 5 "friend" "" 7;
                 Sample.edge DirectedEdge_DEL 5 "p1" "" 7];
       StartTs := 1 |}
  = (Done (inl [Sample.edge DirectedEdge_SET 5 "friend" "" 7;
                Sample.edge DirectedEdge_SET 5 "_predicate_" "friend" 0;
                Sample.edge DirectedEdge_DEL 5 "p1" "" 7;
                Sample.edge DirectedEdge_DEL 5 "_predicate_" "p1" 0;
                Sample.edge DirectedEdge_DEL 7 "_predicate_" "~p1" 0]), []).
Proof.
  rewrite (@expandEdges_concrete (Sample.env true 100)
             {| Edges := [Sample.edge DirectedEdge_SET 5 "friend" "" 7;
                          Sample.edge DirectedEdge_DEL 5 "p1" "" 7];
                StartTs := 1 |}).
  - reflexivity.
  - intros edge Hin.
    apply elem_of_cons in Hin as [-> | Hin]; [split; [by right | split; discriminate] |].
    apply elem_of_cons in Hin as [-> | Hin]; [| inversion Hin].
    split; [by left | split; discriminate].
Defined.

Lemma expandEdges_app_witness :
  exists out,
    @expandEdges (Sample.env true 100)
      {| Edges := [Sample.wildcardDelete 5] ++ [Sample.friendEdge DirectedEdge_SET];
         StartTs := 1 |}
    = (Done (inl out), [Call_getNodePredicates 5 1; Call_posting_Uids "p1" 5 1]) /\
    length out = 8%nat.
Proof.
  eexists. split.
  - rewrite (@expandEdges_app (Sample.env true 100) 1 [Sample.wildcardDelete 5]
               [Sample.friendEdge DirectedEdge_SET] _ _ eq_refl).
    reflexivity.
  - reflexivity.
Defined.

Lemma expandEdges_predicate_set_unusable_witness :
  @expandEdges (Sample.envWith Sample.noPredicateSet Sample.AssignUidsOverNetwork)
    {| Edges := [Sample.friendEdge DirectedEdge_SET; Sample.wildcardDelete 5];
       StartTs := 1 |}
  = (Done (inr (ErrValueMatrix 5)), [Call_getNodePredicates 5 1]).
Proof.
  apply (@expandEdges_predicate_set_unusable
           (Sample.envWith Sample.noPredicateSet Sample.AssignUidsOverNetwork)
           {| Edges := [Sample.friendEdge DirectedEdge_SET; Sample.wildcardDelete 5];
              StartTs := 1 |}
           [Sample.friendEdge DirectedEdge_SET] (Sample.wildcardDelete 5) []
           [Sample.friendEdge DirectedEdge_SET; predicateEdge DirectedEdge_SET 5 "friend"]
           [] (inl [])).
  - reflexivity.
  - reflexivity.
  - by left.
  - reflexivity.
  - reflexivity.
  - reflexivity.
  - intros vl. discriminate.
Defined.

Lemma expandEdges_output_origin_witness :
  exists edge,
    edge ∈ Edges Sample.deleteAll5 /\
    originOf edge (predicateEdge DirectedEdge_DEL 7 "~p1").
Proof.
  pose (out := match outcome (@expandEdges (Sample.env true 100) Sample.deleteAll5) with
              | Done (inl edges) => edges
              | _ => []
              end).
  apply (@expandEdges_output_origin (Sample.env true 100) Sample.deleteAll5 out).
  - reflexivity.
  - do 2 apply list_elem_of_further. apply list_elem_of_here.
Defined.

Lemma ApplyMutations_disabled_forwards_witness :
  @ApplyMutations (Sample.env false 100)
    {| Edges := [Sample.friendEdge DirectedEdge_SET]; StartTs := 1 |}
  = (Done (Some 1, None),
     [Call_MutateOverNetwork
        {| Edges := [Sample.friendEdge DirectedEdge_SET]; StartTs := 1 |}]).
Proof.
  apply (@ApplyMutations_disabled_forwards (Sample.env false 100)
           {| Edges := [Sample.friendEdge DirectedEdge_SET]; StartTs := 1 |}).
  - reflexivity.
  - intros mu Hin. apply elem_of_cons in Hin as [-> | Hin]; [discriminate | inversion Hin].
Defined.

Lemma AssignUids_blank_only_witness :
  @AssignUidsOverNetwork
    (Sample.envWith Sample.getNodePredicates Sample.leaseRefused)
    (Z.of_nat (size (labelsOf [Sample.nquad "_:b" "friend" "_:a" None []])))
  = inr (ErrExternal "no lease").
Proof.
  pose (m := match outcome (@AssignUids
                 (Sample.envWith Sample.getNodePredicates Sample.leaseRefused)
                 [Sample.nquad "_:b" "friend" "_:a" None []]) with
             | Done (m, _) => m
             | _ => ∅
             end).
  apply (@AssignUids_blank_only
           (Sample.envWith Sample.getNodePredicates Sample.leaseRefused)
           [Sample.nquad "_:b" "friend" "_:a" None []] m).
  - intros nq Hin. apply elem_of_cons in Hin as [-> | Hin]; [| inversion Hin].
    split; by right.
  - vm_compute. reflexivity.
Defined.

Lemma verifyUid_monotone_witness :
  @verifyUid (Sample.env true 200) 10100 = None.
Proof.
  apply (verifyUid_monotone (Sample.env true 100) (Sample.env true 200) 10100).
  - unfold is_uint64, uint64_modulus. simpl. lia.
  - simpl. lia.
  - unfold uint64_modulus. simpl. lia.
  - reflexivity.
Defined.

Lemma AssignUids_labels_witness :
  exists assigned,
    outcome (@AssignUids (Sample.env true 100) Sample.twoBlank)
    = Done (assigned, None) /\
    dom assigned = labelsOf Sample.twoBlank.
Proof.
  pose (assigned := match outcome (@AssignUids (Sample.env true 100) Sample.twoBlank) with
                    | Done (m, _) => m
                    | _ => ∅
                    end).
  exists assigned.
  assert (Hrun : outcome (@AssignUids (Sample.env true 100) Sample.twoBlank)
                 = Done (assigned, None)) by (vm_compute; reflexivity).
  split; [exact Hrun |].
  apply (@AssignUids_labels (Sample.env true 100) Sample.twoBlank assigned).
  - intros m. reflexivity.
  - exact Hrun.
Defined.

Lemma AssignUids_error_keeps_placeholders_witness :
  exists m,
    outcome (@AssignUids (Sample.env true 100)
               [Sample.nquad "_:a" "friend" "99999999" None []])
    = Done (m, Some (ErrUidAboveLease 99999999 100)) /\
    (forall k v, m !! k = Some v -> v = 0).
Proof.
  pose (m := match outcome (@AssignUids (Sample.env true 100)
                              [Sample.nquad "_:a" "friend" "99999999" None []]) with
             | Done (m, _) => m
             | _ => ∅
             end).
  exists m.
  assert (Hrun : outcome (@AssignUids (Sample.env true 100)
                            [Sample.nquad "_:a" "friend" "99999999" None []])
                 = Done (m, Some (ErrUidAboveLease 99999999 100)))
    by (vm_compute; reflexivity).
  split; [exact Hrun |].
  apply (@AssignUids_error_keeps_placeholders (Sample.env true 100) _ m _ Hrun).
Defined.

Lemma AssignUids_range_too_small_witness :
  outcome (@AssignUids (Sample.envWith Sample.getNodePredicates Sample.leaseOfOne)
             Sample.twoBlank)
  = Fatal "not enough uids generated".
Proof.
  apply (@AssignUids_range_too_small
           (Sample.envWith Sample.getNodePredicates Sample.leaseOfOne)
           Sample.twoBlank (<["_:a" := 0]> (<["_:b" := 0]> ∅))
           {| StartId := 1001; EndId := 1001 |}).
  - intros m. reflexivity.
  - vm_compute. reflexivity.
  - vm_compute. lia.
  - reflexivity.
  - simpl. lia.
  - unfold uint64_modulus. simpl. lia.
  - right. vm_compute. reflexivity.
Defined.

Lemma AssignUids_skips_predicate_deletion_witness :
  @AssignUids (Sample.env true 100)
    ([Sample.nquad "_:b" "friend" "_:a" None []]
     ++ Sample.predicateDeletion :: [Sample.nquad "_:b" "friend" "55" None []])
  = @AssignUids (Sample.env true 100) Sample.twoBlank.
Proof.
  apply (@AssignUids_skips_predicate_deletion (Sample.env true 100)
           [Sample.nquad "_:b" "friend" "_:a" None []] Sample.predicateDeletion
           [Sample.nquad "_:b" "friend" "55" None []]).
  reflexivity.
Defined.

Lemma AssignUids_rejects_above_lease_witness :
  @AssignUids (Sample.env true 100)
    ([Sample.nquad "_:b" "friend" "_:a" None []]
     ++ Sample.aboveLease :: [Sample.nquad "_:c" "friend" "55" None []])
  = (Done (<["_:a" := 0]> (<["_:b" := 0]> ∅),
           Some (ErrUidAboveLease 99999999 100)), []).
Proof.
  apply (@AssignUids_rejects_above_lease (Sample.env true 100)
           [Sample.nquad "_:b" "friend" "_:a" None []] Sample.aboveLease
           [Sample.nquad "_:c" "friend" "55" None []]
           (<["_:a" := 0]> (<["_:b" := 0]> ∅)) 99999999).
  - vm_compute. reflexivity.
  - reflexivity.
  - discriminate.
  - reflexivity.
  - reflexivity.
  - unfold is_uint64, uint64_modulus. simpl. lia.
  - unfold uint64_modulus. simpl. lia.
  - simpl. lia.
Defined.

Lemma ToInternal_resolution_error_witness :
  exists edge,
    @ToInternal (Sample.env true 100)
      {| Mutation_Set := [Sample.nquad "5" "friend" "7" None []];
         Mutation_Del := [] ++ Sample.unknownBlank :: [Sample.predicateDeletion] |} ∅
    = ([edge], Some (ErrWrap (ErrExternal "uid not found for blank node"))).
Proof.
  eexists.
  apply (@ToInternal_resolution_error (Sample.env true 100)
           [Sample.nquad "5" "friend" "7" None []] [] Sample.unknownBlank
           [Sample.predicateDeletion] ∅).
  - reflexivity.
  - reflexivity.
  - discriminate.
  - reflexivity.
Defined.

Lemma ToInternal_facet_error_witness :
  exists edge,
    @ToInternal (Sample.env true 100)
      {| Mutation_Set := [Sample.nquad "5" "friend" "7" None []]
                         ++ Sample.repeatedFacets :: [];
         Mutation_Del := [Sample.predicateDeletion] |} ∅
    = ([edge], Some (ErrExternal "repeated facet key")).
Proof.
  eexists.
  apply (@ToInternal_facet_error (Sample.env true 100)
           [Sample.nquad "5" "friend" "7" None []] Sample.repeatedFacets []
           [Sample.predicateDeletion] ∅ _
           (Facets Sample.repeatedFacets) (ErrExternal "repeated facet key")).
  - reflexivity.
  - reflexivity.
Defined.


Lemma AssignUids_single_request_witness :
  snd (@AssignUids (Sample.env true 100) Sample.twoBlank)
  = [Call_AssignUidsOverNetwork 2] /\
  @AssignUids (Sample.env true 100) Sample.knownOnly = (Done (∅, None), []) /\
  @AssignUids (Sample.env true 100) [Sample.nquad "_:a" "friend" "99999999" None []]
  = (Done (<["_:a" := 0]> ∅, Some (ErrUidAboveLease 99999999 100)), []).
Proof.
  split; [| split].
  - destruct (@AssignUids_single_request (Sample.env true 100) Sample.twoBlank)
      as (_ & Hvalid & _).
    destruct Hvalid as [Hsome _].
    + intros nq Hin. right.
      apply elem_of_cons in Hin as [-> | Hin]; [split; by left |].
      apply elem_of_cons in Hin as [-> | Hin]; [| inversion Hin].
      split; [by left |]. right. right. split; reflexivity.
    + rewrite Hsome; [reflexivity |]. vm_compute. discriminate.
  - destruct (@AssignUids_single_request (Sample.env true 100) Sample.knownOnly)
      as (_ & Hvalid & _).
    destruct Hvalid as [_ Hnone].
    + intros nq Hin. right.
      apply elem_of_cons in Hin as [-> | Hin];
        [split; right; right; split; reflexivity |].
      apply elem_of_cons in Hin as [-> | Hin]; [| inversion Hin].
      split; [right; right; split; reflexivity | right; by left].
    + apply Hnone. reflexivity.
  - destruct (@AssignUids_single_request (Sample.env true 100)
                [Sample.nquad "_:a" "friend" "99999999" None []])
      as (_ & _ & Hfail).
    rewrite (Hfail (ErrUidAboveLease 99999999 100)); reflexivity.
Defined.
